(** * A shallow embedding of [driver.py]: the turn engine of [GameDriver]

    The Python class [GameDriver] is embedded as a record of its fields and
    its methods as computations in a state-and-exception monad: an exception
    raised in the middle of [play] leaves the object as it has been mutated
    so far, and the embedding keeps that state.

    Numbers: Python's [int] is [Z].  The quotient [win_chance] and the value
    of [np.random.random()] are Python [float]s, that is IEEE 754 binary64
    numbers: they are values of [spec_float], the Standard Library's
    specification of that format, the division of two [int]s being the
    binary64 number nearest to the quotient. *)

From Stdlib Require Import ZArith Lia SpecFloat.
From stdpp Require Import base decidable option list gmap.

Local Open Scope Z_scope.

(** ** Exceptions and the monad of [GameDriver] methods *)

Inductive exn : Type :=
  | IndexError
  | KeyError
  | ZeroDivisionError
  | AssertionError
  | ValueError
  | OverflowError.

Inductive result (A : Type) : Type :=
  | Ok (a : A)
  | Raise (e : exn).

Arguments Ok {A} a.
Arguments Raise {A} e.

(** ** Data model *)

(** Modelled from the spec: [utils.MapTiles] is not part of the sources.  The
    driver names two of its members, [U] (not yet observed) and [WALL]; the
    map generator draws from the four members that follow the first one, so
    the enumeration has five members.  The three passable terrains carry the
    spec's names. *)
Inductive MapTiles : Type :=
  | U
  | TerrainA
  | TerrainB
  | TerrainC
  | WALL.

#[global] Instance MapTiles_eq_dec : EqDecision MapTiles.
Proof. solve_decision. Defined.

(** Modelled from the spec: [utils.Directions] is not part of the sources;
    the decision contract names four directions. *)
Inductive Directions : Type :=
  | NORTH
  | WEST
  | SOUTH
  | EAST.

#[global] Instance Directions_eq_dec : EqDecision Directions.
Proof. solve_decision. Defined.

(** What [agent.step] may hand back: a member of [Directions], or any other
    Python value. *)
Inductive decision : Type :=
  | Dir (d : Directions)
  | NotADirection.

(** Modelled from the spec: [utils.PowerUp], [utils.StaticMonster] and
    [utils.Boss] are not part of the sources.  The driver reads [delta] of a
    power-up and [strength] of a monster; a boss is neither of the two. *)
Inductive GameObject : Type :=
  | PowerUp (delta : Z)
  | StaticMonster (strength : Z)
  | Boss.

#[global] Instance GameObject_eq_dec : EqDecision GameObject.
Proof. solve_decision. Defined.

Abbreviation Location := (Z * Z)%type.
Abbreviation ndarray := (list (list MapTiles)).
Abbreviation ObjectMap := (gmap (Z * Z) GameObject).

(** *** Two-dimensional numpy arrays

    An index [i] into an axis of length [n] is valid when [-n <= i < n];
    a negative one counts from the end.  Anything else is an [IndexError]
    ([None] here). *)
Definition np_index (n : nat) (i : Z) : option nat :=
  if decide (0 <= i < Z.of_nat n) then Some (Z.to_nat i)
  else if decide (- Z.of_nat n <= i < 0) then Some (Z.to_nat (Z.of_nat n + i))
  else None.

Definition np_get (a : ndarray) (i j : Z) : option MapTiles :=
  match np_index (length a) i with
  | None => None
  | Some r =>
      match a !! r with
      | None => None
      | Some row =>
          match np_index (length row) j with
          | None => None
          | Some c => row !! c
          end
      end
  end.

Definition np_set (a : ndarray) (i j : Z) (v : MapTiles) : option ndarray :=
  match np_index (length a) i with
  | None => None
  | Some r =>
      match a !! r with
      | None => None
      | Some row =>
          match np_index (length row) j with
          | None => None
          | Some c => Some (<[r := <[c := v]> row]> a)
          end
      end
  end.

(** The cell in row [r], column [c] of an array, by position. *)
Definition cell (a : ndarray) (r c : nat) : option MapTiles :=
  match a !! r with
  | None => None
  | Some row => row !! c
  end.

(** *** The fields of [GameDriver]

    [agents] is [len(self.agents)]; the agents themselves only enter through
    their [step] method, which is a parameter of the engine below. *)
Record GameDriver : Type := mkGameDriver {
  width : Z;
  height : Z;
  num_powerups : nat;
  num_monsters : nat;
  agents : nat;
  game_map : ndarray;
  objects : ObjectMap;
  agent_maps : list ndarray;
  agent_objects : list ObjectMap;
  agent_locations : list Location;
  agent_strengths : list Z;
  initial_strength : Z;
  goal_loc : Location
}.

Definition with_game_map (a : ndarray) (g : GameDriver) : GameDriver :=
  mkGameDriver (width g) (height g) (num_powerups g) (num_monsters g)
    (agents g) a (objects g)
    (agent_maps g) (agent_objects g) (agent_locations g) (agent_strengths g)
    (initial_strength g) (goal_loc g).

Definition with_goal_loc (loc : Location) (g : GameDriver) : GameDriver :=
  mkGameDriver (width g) (height g) (num_powerups g) (num_monsters g)
    (agents g) (game_map g) (objects g)
    (agent_maps g) (agent_objects g) (agent_locations g) (agent_strengths g)
    (initial_strength g) loc.

Definition with_objects (o : ObjectMap) (g : GameDriver) : GameDriver :=
  mkGameDriver (width g) (height g) (num_powerups g) (num_monsters g)
    (agents g) (game_map g) o
    (agent_maps g) (agent_objects g) (agent_locations g) (agent_strengths g)
    (initial_strength g) (goal_loc g).

Definition with_agent_maps (m : list ndarray) (g : GameDriver) : GameDriver :=
  mkGameDriver (width g) (height g) (num_powerups g) (num_monsters g)
    (agents g) (game_map g) (objects g)
    m (agent_objects g) (agent_locations g) (agent_strengths g)
    (initial_strength g) (goal_loc g).

Definition with_agent_objects (m : list ObjectMap) (g : GameDriver) : GameDriver :=
  mkGameDriver (width g) (height g) (num_powerups g) (num_monsters g)
    (agents g) (game_map g) (objects g)
    (agent_maps g) m (agent_locations g) (agent_strengths g)
    (initial_strength g) (goal_loc g).

Definition with_agent_locations (l : list Location) (g : GameDriver) : GameDriver :=
  mkGameDriver (width g) (height g) (num_powerups g) (num_monsters g)
    (agents g) (game_map g) (objects g)
    (agent_maps g) (agent_objects g) l (agent_strengths g)
    (initial_strength g) (goal_loc g).

Definition with_agent_strengths (s : list Z) (g : GameDriver) : GameDriver :=
  mkGameDriver (width g) (height g) (num_powerups g) (num_monsters g)
    (agents g) (game_map g) (objects g)
    (agent_maps g) (agent_objects g) (agent_locations g) s
    (initial_strength g) (goal_loc g).

(** ** The monad: state of the driver, and exceptions that keep it *)

Definition M (A : Type) : Type := GameDriver -> result A * GameDriver.

Definition ret {A} (a : A) : M A := fun g => (Ok a, g).

Definition bind {A B} (m : M A) (k : A -> M B) : M B :=
  fun g =>
    match m g with
    | (Ok a, g') => k a g'
    | (Raise e, g') => (Raise e, g')
    end.

Definition raise {A} (e : exn) : M A := fun g => (Raise e, g).

Definition gets {A} (f : GameDriver -> A) : M A := fun g => (Ok (f g), g).

Definition modify (f : GameDriver -> GameDriver) : M unit :=
  fun g => (Ok tt, f g).

(** [o] when it is there, the exception [e] otherwise. *)
Definition orelse {A} (e : exn) (o : option A) : M A :=
  match o with
  | Some a => ret a
  | None => raise e
  end.

Notation "'let!' x ':=' m 'in' k" := (bind m (fun x => k))
  (at level 10, x name, m at level 100, k at level 200).

(** A [for] loop over a list, run for its effects. *)
Fixpoint for_ {A} (l : list A) (body : A -> M unit) : M unit :=
  match l with
  | [] => ret tt
  | x :: l' => let! _ := body x in for_ l' body
  end.

(** *** Reads and writes of the indexed fields

    [idx] is never negative, so indexing a Python list with it raises
    [IndexError] exactly when it is past the end. *)
Definition location_get (idx : nat) : M Location :=
  let! l := gets agent_locations in orelse IndexError (l !! idx).

Definition location_set (idx : nat) (loc : Location) : M unit :=
  let! l := gets agent_locations in
  let! _ := orelse IndexError (l !! idx) in
  modify (with_agent_locations (<[idx := loc]> l)).

Definition strength_get (idx : nat) : M Z :=
  let! l := gets agent_strengths in orelse IndexError (l !! idx).

Definition strength_set (idx : nat) (s : Z) : M unit :=
  let! l := gets agent_strengths in
  let! _ := orelse IndexError (l !! idx) in
  modify (with_agent_strengths (<[idx := s]> l)).

Definition agent_map_get (idx : nat) : M ndarray :=
  let! l := gets agent_maps in orelse IndexError (l !! idx).

Definition agent_map_set (idx : nat) (i j : Z) (v : MapTiles) : M unit :=
  let! a := agent_map_get idx in
  let! a' := orelse IndexError (np_set a i j v) in
  modify (fun g => with_agent_maps (<[idx := a']> (agent_maps g)) g).

Definition agent_objects_get (idx : nat) : M ObjectMap :=
  let! l := gets agent_objects in orelse IndexError (l !! idx).

Definition agent_objects_put (idx : nat) (o : ObjectMap) : M unit :=
  modify (fun g => with_agent_objects (<[idx := o]> (agent_objects g)) g).

Definition game_map_get (i j : Z) : M MapTiles :=
  let! a := gets game_map in orelse IndexError (np_get a i j).

(** ** The turn engine: [GameDriver.play] *)

(** The offsets the loop over the product of [[-1, 0, 1]] with itself
    visits, in its order, without the [(0, 0)] it skips. *)
Definition neighbours : list (Z * Z) :=
  [(-1, -1); (-1, 0); (-1, 1); (0, -1); (0, 1); (1, -1); (1, 0); (1, 1)].

Definition in_bounds (g : GameDriver) (loc : Location) : Prop :=
  (0 <= loc.1 < height g) /\ (0 <= loc.2 < width g).

#[global] Instance in_bounds_dec g loc : Decision (in_bounds g loc).
Proof. unfold in_bounds. apply _. Defined.

(** *** Python's [float]: IEEE 754 binary64

    53 bits of precision, exponents up to 1024; the operations are the
    Standard Library's specification of the format. *)
Abbreviation float := spec_float.

Definition prec : Z := 53.

Definition emax : Z := 1024.

(** An [int] as an operand of the true division: its sign and its
    magnitude, exactly. *)
Definition int_operand (a : Z) : float :=
  match a with
  | Z0 => S754_zero false
  | Zpos p => S754_finite false p 0
  | Zneg p => S754_finite true p 0
  end.

(** [a / b] on two [int]s, [b] not 0: the binary64 number nearest to the
    quotient, ties to even; an infinity stands for a quotient beyond the
    range of the format. *)
Definition int_true_div (a b : Z) : float :=
  SFdiv prec emax (int_operand a) (int_operand b).

(** [x > y] on two [float]s. *)
Definition float_gt (x y : float) : bool := SFltb y x.

(** Lines 108-115: where a step in a direction leads. *)
Definition dst_of (direction : Directions) (current_loc : Location) : Location :=
  match direction with
  | NORTH => (current_loc.1 - 1, current_loc.2)
  | WEST => (current_loc.1, current_loc.2 - 1)
  | SOUTH => (current_loc.1 + 1, current_loc.2)
  | EAST => (current_loc.1, current_loc.2 + 1)
  end.

(** How one iteration of the loop of [play] ends. *)
Inductive status : Type :=
  | Died
  | Won
  | Continue.

(** How a run of [play] ends: an agent died or won, an exception left the
    loop, there is no agent to cycle over, or the fuel of the model is
    spent while the game is still running. *)
Inductive run_result : Type :=
  | AgentDied (idx : nat)
  | AgentWon (idx : nat)
  | Aborted (e : exn)
  | NoAgents
  | Running.

Section Engine.

(** [utils.tile_cost], a table from tiles to costs that is not part of the
    sources: a tile without an entry is a [KeyError]. *)
Variable tile_cost : MapTiles -> option Z.

(** [agent.step] of the agent with index [idx] at loop iteration [step],
    on the four arguments the driver passes. *)
Variable agent_step :
  nat -> nat -> Location -> Z -> ndarray -> ObjectMap -> decision.

(** The value [np.random.random()] returns at loop iteration [step]. *)
Variable random : nat -> float.

(** Lines 87-90, the first half of the body of the loop over the
    neighbouring offsets: a cell on the map that the agent's private map
    holds as [U] gets the tile of the game map. *)
Definition reveal (idx : nat) (new_i new_j : Z) : M unit :=
  let! g := gets id in
  if decide (in_bounds g (new_i, new_j)) then
    let! a := agent_map_get idx in
    let! known := orelse IndexError (np_get a new_i new_j) in
    if decide (known = U) then
      let! t := game_map_get new_i new_j in
      agent_map_set idx new_i new_j t
    else ret tt
  else ret tt.

(** Lines 91-93, the second half: an object at the cell is entered into the
    agent's private object map. *)
Definition notice (idx : nat) (new_i new_j : Z) : M unit :=
  let! objs := gets objects in
  match objs !! (new_i, new_j) with
  | Some o =>
      let! known := agent_objects_get idx in
      agent_objects_put idx (<[(new_i, new_j) := o]> known)
  | None => ret tt
  end.

(** Lines 82-93: the body of the loop over the neighbouring offsets. *)
Definition observe (idx : nat) (current_loc : Location) (off : Z * Z) : M unit :=
  let new_i := current_loc.1 + off.1 in
  let new_j := current_loc.2 + off.2 in
  let! _ := reveal idx new_i new_j in
  notice idx new_i new_j.

(** Lines 81-93: "update map for agents". *)
Definition update_map (idx : nat) (current_loc : Location) : M unit :=
  for_ neighbours (observe idx current_loc).

(** [self.agent_strengths[idx] -= amount], the amount being computed
    between the read and the write. *)
Definition pay (idx : nat) (amount : M Z) : M unit :=
  let! s := strength_get idx in
  let! c := amount in
  strength_set idx (s - c).

(** [self.agent_strengths[idx] += amount]. *)
Definition gain (idx : nat) (amount : Z) : M unit :=
  let! s := strength_get idx in
  strength_set idx (s + amount).

Definition cost_at (loc : Location) : M Z :=
  let! t := game_map_get loc.1 loc.2 in
  orelse KeyError (tile_cost t).

(** Lines 117-131: the four-way conditional that yields [final_loc]. *)
Definition resolve_move (idx : nat) (current_loc dst_loc : Location) : M Location :=
  let! g := gets id in
  if decide (~ in_bounds g dst_loc) then
    let! _ := pay idx (ret 1) in ret current_loc
  else
    let! t := game_map_get dst_loc.1 dst_loc.2 in
    if decide (t = WALL) then
      let! _ := pay idx (ret 1) in ret current_loc
    else
      let! s := strength_get idx in
      let! c := cost_at dst_loc in
      if decide (s < c) then
        let! _ := pay idx (ret 1) in ret current_loc
      else
        let! _ := pay idx (cost_at dst_loc) in ret dst_loc.

(** Lines 138-139 and 152-153, "if final_loc in self.agent_objects[idx]:
    del ...": the body of the loop that follows
    [del self.objects[final_loc]]. *)
Definition forget (idx : nat) (final_loc : Location) : M unit :=
  let! known := agent_objects_get idx in
  if decide (is_Some (known !! final_loc)) then
    let! known' := agent_objects_get idx in
    agent_objects_put idx (delete final_loc known')
  else ret tt.

(** Lines 137-139 and 151-153, that loop: it runs once per agent, its
    variable is [i], and its body indexes with [idx]. *)
Definition purge (idx : nat) (final_loc : Location) : M unit :=
  let! n := gets agents in
  for_ (seq 0 n) (fun i : nat => forget idx final_loc).

Definition del_object (final_loc : Location) : M unit :=
  modify (fun g => with_objects (delete final_loc (objects g)) g).

(** [a / b] on two [int]s: [ZeroDivisionError] on a zero divisor,
    [OverflowError] when the quotient is too large for a [float]. *)
Definition true_div (a b : Z) : M float :=
  if decide (b = 0) then raise ZeroDivisionError
  else
    match int_true_div a b with
    | S754_infinity _ => raise OverflowError
    | q => ret q
    end.

(** Lines 142-156: the fight with a monster of the given [strength]. *)
Definition fight (step idx : nat) (final_loc : Location) (strength : Z) : M unit :=
  let! s := strength_get idx in
  let! s' := strength_get idx in
  let! win_chance := true_div s (s' + strength) in
  if float_gt (random step) win_chance then
    let! init := gets initial_strength in
    let! _ := strength_set idx init in
    let! _ := gain idx strength in
    let! _ := del_object final_loc in
    purge idx final_loc
  else
    strength_set idx 0.

(** Lines 133-156: "if final_loc in self.objects: ...". *)
Definition interact (step idx : nat) (final_loc : Location) : M unit :=
  let! objs := gets objects in
  match objs !! final_loc with
  | None => ret tt
  | Some (PowerUp delta) =>
      let! _ := gain idx delta in
      let! _ := del_object final_loc in
      purge idx final_loc
  | Some (StaticMonster strength) => fight step idx final_loc strength
  | Some Boss => ret tt
  end.

(** Lines 95-99: the four arguments of [agent.step] are read off the
    driver; the answer is whatever the agent returns.  The agent is taken to
    read its arguments only. *)
Definition ask (step idx : nat) : M decision :=
  let! loc := location_get idx in
  let! s := strength_get idx in
  let! known_map := agent_map_get idx in
  let! known_objects := agent_objects_get idx in
  ret (agent_step step idx loc s known_map known_objects).

(** Lines 158-164, the end of an iteration: the location is stored, then
    the agent is dead, or has won, or the loop goes on. *)
Definition finish (idx : nat) (final_loc : Location) : M status :=
  let! _ := location_set idx final_loc in
  let! s := strength_get idx in
  if decide (s <= 0) then ret Died
  else
    let! goal := gets goal_loc in
    if decide (final_loc = goal) then ret Won else ret Continue.

(** Lines 72-156: an iteration of the loop up to the interaction with the
    object on [final_loc] (with [verbose=False], and with the [assert] of
    line 105 in force); it yields [final_loc]. *)
Definition act (step idx : nat) : M Location :=
  let! current_loc := location_get idx in
  let! _ := update_map idx current_loc in
  let! direction := ask step idx in
  match direction with
  | NotADirection => raise AssertionError
  | Dir d =>
      let dst_loc := dst_of d current_loc in
      let! final_loc := resolve_move idx current_loc dst_loc in
      let! _ := interact step idx final_loc in
      ret final_loc
  end.

(** Lines 71-164: one iteration of the loop of [play]. *)
Definition turn (step : nat) : M status :=
  let! n := gets agents in
  let idx := (step mod n)%nat in
  let! final_loc := act step idx in
  finish idx final_loc.

(** The loop of [play] from iteration [step] on, for at most [fuel]
    iterations. *)
Fixpoint play_from (fuel step : nat) (g : GameDriver) : run_result * GameDriver :=
  match fuel with
  | O => (Running, g)
  | S fuel' =>
      match turn step g with
      | (Raise e, g') => (Aborted e, g')
      | (Ok Died, g') => (AgentDied (step mod agents g)%nat, g')
      | (Ok Won, g') => (AgentWon (step mod agents g)%nat, g')
      | (Ok Continue, g') => play_from fuel' (S step) g'
      end
  end.

(** [play]: cycling over no agent at all ends the loop at once. *)
Definition play (fuel : nat) (g : GameDriver) : run_result * GameDriver :=
  if decide (agents g = 0%nat) then (NoAgents, g) else play_from fuel 0 g.

End Engine.

(** ** Setting the game up: [GameDriver.initialize_game] *)

(** Line 176, [np.where(game_map != WALL)]: the cells that are not walls,
    row by row. *)
Fixpoint nonwall_row (i j : Z) (row : list MapTiles) : list Location :=
  match row with
  | [] => []
  | t :: row' =>
      (if decide (t = WALL) then [] else [(i, j)]) ++ nonwall_row i (j + 1) row'
  end.

Fixpoint nonwall_rows (i : Z) (a : ndarray) : list Location :=
  match a with
  | [] => []
  | row :: a' => nonwall_row i 0 row ++ nonwall_rows (i + 1) a'
  end.

Definition nonwall_indices (a : ndarray) : list Location := nonwall_rows 0 a.

(** Lines 197-202, the draws of an agent's location: [draws] are the values that the calls
    of [np.random.choice(len(nonwall))] return, in order.  The first draw
    that is neither the goal nor taken is kept, with the draws that remain.
    [None]: the draws are used up before the loop ends, or a draw is not an
    index of [nonwall]. *)
Fixpoint draw_location (nonwall : list Location) (goal : Location)
    (placed : list Location) (draws : list nat) : option (Location * list nat) :=
  match draws with
  | [] => None
  | idx :: draws' =>
      match nonwall !! idx with
      | None => None
      | Some loc =>
          if decide (loc = goal \/ Exists (fun prev_loc => loc = prev_loc) placed)
          then draw_location nonwall goal placed draws'
          else Some (loc, draws')
      end
  end.

(** Lines 196-203, "initial locations for agents": one location appended
    per agent. *)
Fixpoint place_agents (n : nat) (nonwall : list Location) (goal : Location)
    (placed : list Location) (draws : list nat) : option (list Location) :=
  match n with
  | O => Some placed
  | S n' =>
      match draw_location nonwall goal placed draws with
      | None => None
      | Some (loc, draws') =>
          place_agents n' nonwall goal (placed ++ [loc]) draws'
      end
  end.

Section Setup.

(** The fields of the [cnt]-th object that [utils.PowerUp()] and
    [utils.StaticMonster()] construct. *)
Variable powerup_delta : nat -> Z.
Variable monster_strength : nat -> Z.

(** Lines 182-188: the loop over [enumerate(object_indices[1:])]. *)
Fixpoint place_objects (nonwall : list Location) (powerups : nat) (cnt : nat)
    (indices : list nat) (objs : ObjectMap) : option ObjectMap :=
  match indices with
  | [] => Some objs
  | idx :: indices' =>
      match nonwall !! idx with
      | None => None
      | Some loc =>
          place_objects nonwall powerups (S cnt) indices'
            (<[loc := if decide (cnt < powerups)%nat
                      then PowerUp (powerup_delta cnt)
                      else StaticMonster (monster_strength cnt)]> objs)
      end
  end.

(** [initialize_game], given what the random generator returns: the
    [tiles] of the map (no [U] among them), the [object_indices] and the
    [draws] for the agents.  [None]: these do not describe a run of the
    method (see [draw_location]).  The private maps are filled with
    [MapTiles.UKNOWN], taken to be the member [U] that [play] tests for. *)
Definition initialize_game (tiles : ndarray) (object_indices draws : list nat)
    (g : GameDriver) : option (result GameDriver) :=
  let g1 := with_game_map tiles g in
  let nonwall := nonwall_indices tiles in
  if decide (length nonwall < num_monsters g + num_powerups g + 1)%nat
  then Some (Raise ValueError)
  else
    match place_objects nonwall (num_powerups g) 0 (tail object_indices)
            (objects g1) with
    | None => None
    | Some objs =>
        match nonwall !! 0%nat with
        | None => Some (Raise IndexError)
        | Some boss_loc =>
            let g2 := with_goal_loc boss_loc
                        (with_objects (<[boss_loc := Boss]> objs) g1) in
            match place_agents (agents g) nonwall boss_loc
                    (agent_locations g2) draws with
            | None => None
            | Some locs =>
                let g3 := with_agent_locations locs g2 in
                let unknown :=
                  replicate (Z.to_nat (height g))
                    (replicate (Z.to_nat (width g)) U) in
                let g4 :=
                  with_agent_maps
                    (agent_maps g3 ++ replicate (agents g) unknown) g3 in
                Some (Ok (with_agent_objects
                            (agent_objects g4 ++ replicate (agents g) ∅) g4))
            end
        end
    end.

(** The fields as [__init__] leaves them before it calls
    [initialize_game]: [game_map] is [None] and [goal_loc] is not set yet
    (an empty array and the origin stand for them; [initialize_game]
    overwrites both before anything reads them). *)
Definition fresh (height width : Z) (num_powerups num_monsters agents : nat)
    (initial_strength : Z) : GameDriver :=
  mkGameDriver width height num_powerups num_monsters agents [] ∅ [] [] []
    (replicate agents initial_strength) initial_strength (0, 0).

End Setup.

(** ** Notions the statements below use *)

(** What the private map of agent [a] holds in row [r], column [c]. *)
Definition private_cell (g : GameDriver) (a r c : nat) : option MapTiles :=
  match agent_maps g !! a with
  | Some m => cell m r c
  | None => None
  end.

(** Whether the private object map of agent [a] has an entry at [loc]. *)
Definition knows_object (g : GameDriver) (a : nat) (loc : Location) : Prop :=
  exists known, agent_objects g !! a = Some known /\ is_Some (known !! loc).

(** A move to [dst_loc] by an agent of strength [s] is blocked: the
    destination is off the map, is a wall, or costs more than [s]. *)
Definition blocked (tile_cost : MapTiles -> option Z) (g : GameDriver)
    (dst_loc : Location) (s : Z) : Prop :=
  ~ in_bounds g dst_loc
  \/ np_get (game_map g) dst_loc.1 dst_loc.2 = Some WALL
  \/ exists t c, np_get (game_map g) dst_loc.1 dst_loc.2 = Some t
                 /\ tile_cost t = Some c /\ s < c.

(** The driver after [self.agent_strengths[idx] = s]. *)
Definition set_strength (idx : nat) (s : Z) (g : GameDriver) : GameDriver :=
  with_agent_strengths (<[idx := s]> (agent_strengths g)) g.

(** The driver after a won fight, up to the private object maps. *)
Definition after_win (idx : nat) (final_loc : Location) (strength : Z)
    (known : list ObjectMap) (g : GameDriver) : GameDriver :=
  with_agent_objects known
    (with_objects (delete final_loc (objects g))
       (set_strength idx (initial_strength g + strength) g)).

(** Everything but the private knowledge of agent [idx] is the same in [g]
    and [g']. *)
Definition same_but_knowledge_of (idx : nat) (g g' : GameDriver) : Prop :=
  width g' = width g /\ height g' = height g
  /\ num_powerups g' = num_powerups g /\ num_monsters g' = num_monsters g
  /\ agents g' = agents g /\ game_map g' = game_map g
  /\ objects g' = objects g
  /\ agent_locations g' = agent_locations g
  /\ agent_strengths g' = agent_strengths g
  /\ initial_strength g' = initial_strength g /\ goal_loc g' = goal_loc g
  /\ (forall a, a <> idx -> agent_maps g' !! a = agent_maps g !! a)
  /\ (forall a, a <> idx -> agent_objects g' !! a = agent_objects g !! a).

(** The number of agents, their locations and the goal are the same in [g]
    and [g']. *)
Definition keeps_placement (g g' : GameDriver) : Prop :=
  agents g' = agents g
  /\ agent_locations g' = agent_locations g
  /\ goal_loc g' = goal_loc g.

(** The fog of war only lifts: the authoritative map is the same, and a
    private cell keeps its tile unless it held [U], in which case it may
    hold the authoritative tile of that cell instead. *)
Definition fog_lifts (g g' : GameDriver) : Prop :=
  game_map g' = game_map g
  /\ forall a r c t,
       private_cell g a r c = Some t ->
       exists t', private_cell g' a r c = Some t'
                  /\ (t' = t \/ (t = U /\ cell (game_map g) r c = Some t')).

(** A computation all of whose runs relate the state before to the state
    after by [R], whether it returns or raises. *)
Definition preserves (R : GameDriver -> GameDriver -> Prop) {A} (m : M A) : Prop :=
  forall g, R g (m g).2.

(** ** Notions for the further properties *)

(** An array of [h] rows of [w] cells each. *)
Definition has_shape (h w : Z) (a : ndarray) : Prop :=
  Z.of_nat (length a) = h
  /\ Forall (fun row : list MapTiles => Z.of_nat (length row) = w) a.

(** A driver whose arrays have the shape [(height, width)] and whose four
    per-agent lists have one entry per agent: what [__init__] and
    [initialize_game] set up. *)
Definition well_formed (g : GameDriver) : Prop :=
  has_shape (height g) (width g) (game_map g)
  /\ Forall (has_shape (height g) (width g)) (agent_maps g)
  /\ length (agent_maps g) = agents g
  /\ length (agent_objects g) = agents g
  /\ length (agent_locations g) = agents g
  /\ length (agent_strengths g) = agents g.

(** Well-formedness is carried from [g] to [g'], which has the same game
    map and as many agents. *)
Definition stays_well_formed (g g' : GameDriver) : Prop :=
  (well_formed g -> well_formed g')
  /\ game_map g' = game_map g
  /\ agents g' = agents g.

(** The cost table has an entry for every tile of the game map that is not
    a wall. *)
Definition costed (tile_cost : MapTiles -> option Z) (g : GameDriver) : Prop :=
  forall r c t,
    cell (game_map g) r c = Some t -> t <> WALL -> is_Some (tile_cost t).

(** The exceptions that the game itself raises on a well-formed driver: the
    [assert] on the agent's answer and the two of the division of the
    fight. *)
Definition game_exception (e : exn) : Prop :=
  e = AssertionError \/ e = ZeroDivisionError \/ e = OverflowError.

(** What no iteration writes is the same in [g] and [g']; the object map of
    [g'] is a part of that of [g]; the per-agent lists are as long. *)
Definition static_kept (g g' : GameDriver) : Prop :=
  width g' = width g /\ height g' = height g
  /\ num_powerups g' = num_powerups g /\ num_monsters g' = num_monsters g
  /\ agents g' = agents g /\ game_map g' = game_map g
  /\ initial_strength g' = initial_strength g /\ goal_loc g' = goal_loc g
  /\ objects g' ⊆ objects g
  /\ length (agent_maps g') = length (agent_maps g)
  /\ length (agent_objects g') = length (agent_objects g)
  /\ length (agent_locations g') = length (agent_locations g)
  /\ length (agent_strengths g') = length (agent_strengths g).

(** The entries of every agent but [idx] are the same in [g] and [g']. *)
Definition others_kept (idx : nat) (g g' : GameDriver) : Prop :=
  forall a, a <> idx ->
    agent_maps g' !! a = agent_maps g !! a
    /\ agent_objects g' !! a = agent_objects g !! a
    /\ agent_locations g' !! a = agent_locations g !! a
    /\ agent_strengths g' !! a = agent_strengths g !! a.

Definition turn_footprint (idx : nat) (g g' : GameDriver) : Prop :=
  static_kept g g' /\ others_kept idx g g'.

(** During the refresh of agent [idx]: the fog only lifts and nothing but
    that agent's knowledge is written. *)
Definition refreshes (idx : nat) (g g' : GameDriver) : Prop :=
  same_but_knowledge_of idx g g' /\ fog_lifts g g'.

(** The object map is the same, and what agent [idx] knows rightly about
    an object it still knows. *)
Definition snapshot_kept (idx : nat) (g g' : GameDriver) : Prop :=
  objects g' = objects g
  /\ forall loc o known,
       objects g !! loc = Some o ->
       agent_objects g !! idx = Some known ->
       known !! loc = Some o ->
       exists known',
         agent_objects g' !! idx = Some known' /\ known' !! loc = Some o.

(** The cell in row [r], column [c] is one of the eight around
    [current_loc]. *)
Definition is_neighbour (current_loc : Location) (r c : nat) : Prop :=
  exists off,
    off ∈ neighbours
    /\ (Z.of_nat r, Z.of_nat c)
       = (current_loc.1 + off.1, current_loc.2 + off.2).

(** The private maps of [g] and [g'] differ at most in the cells of agent
    [idx] that are offset from [current_loc] by a member of [offs]. *)
Definition lifts_within (idx : nat) (current_loc : Location)
    (offs : list (Z * Z)) (g g' : GameDriver) : Prop :=
  forall a r c,
    (a = idx ->
     forall off, off ∈ offs ->
       (Z.of_nat r, Z.of_nat c)
       <> (current_loc.1 + off.1, current_loc.2 + off.2)) ->
    private_cell g' a r c = private_cell g a r c.

(** What the private maps show of the map is true: a private cell holds
    [U] or the game map's tile of that cell. *)
Definition knowledge_sound (g : GameDriver) : Prop :=
  forall a r c t,
    private_cell g a r c = Some t -> t = U \/ cell (game_map g) r c = Some t.

Definition stays_sound (g g' : GameDriver) : Prop :=
  game_map g' = game_map g /\ (knowledge_sound g -> knowledge_sound g').

(** No power-up and no monster is on the map: the boss at most. *)
Definition quiet (g : GameDriver) : Prop :=
  forall loc o, objects g !! loc = Some o -> o = Boss.

(** Every cost of the table is at least 1. *)
Definition costs_positive (tile_cost : MapTiles -> option Z) : Prop :=
  forall t c, tile_cost t = Some c -> 1 <= c.

(** ** The constructor: [GameDriver.__init__] *)

(** [save_map] and [load_map] are [pass]. *)
Definition save_map (g : GameDriver) : GameDriver := g.

Definition load_map (g : GameDriver) : GameDriver := g.

(** Lines 35-67, [__init__] on a list of [agents] agents: the [assert] on
    the number of objects, the fields, and then either [initialize_game] and
    [save_map] ([map_file] is [None], [false] here) or [load_map]. *)
Definition new_GameDriver (powerup_delta monster_strength : nat -> Z)
    (height width : Z) (num_powerups num_monsters agents : nat)
    (initial_strength : Z) (map_file : bool)
    (tiles : ndarray) (object_indices draws : list nat)
    : option (result GameDriver) :=
  if decide (Z.of_nat (num_monsters + num_powerups + 1) <= height * width)
  then
    let g := fresh height width num_powerups num_monsters agents
               initial_strength in
    if map_file then Some (Ok (load_map g))
    else
      match initialize_game powerup_delta monster_strength tiles
              object_indices draws g with
      | Some (Ok g') => Some (Ok (save_map g'))
      | r => r
      end
  else Some (Raise AssertionError).

(** ** Concrete games *)

(** A cost table: the three terrains cost 1, 3 and 10. *)
Definition sample_cost (t : MapTiles) : option Z :=
  match t with
  | TerrainA => Some 1
  | TerrainB => Some 3
  | TerrainC => Some 10
  | U | WALL => None
  end.

(** Every draw is 0.5, that is [2^52 * 2^-53]. *)
Definition half : nat -> float :=
  fun _ => S754_finite false 4503599627370496 (-53).

(** One row of four cells; agent 0 on the left, a power-up next to it,
    agent 1 on the third cell, the boss on the last. *)
Definition corridor : GameDriver :=
  mkGameDriver 4 1 1 0 2
    [[TerrainA; TerrainA; TerrainA; TerrainA]]
    {[ (0, 1) := PowerUp 5; (0, 3) := Boss ]}
    [[[U; U; U; U]]; [[U; U; U; U]]] [∅; ∅]
    [(0, 0); (0, 2)] [10; 10] 10 (0, 3).

(** Both agents bump into the northern edge once; then agent 0 steps east,
    onto the power-up. *)
Definition corridor_agents (step idx : nat) (loc : Location) (s : Z)
    (known_map : ndarray) (known_objects : ObjectMap) : decision :=
  match step with
  | 0%nat | 1%nat => Dir NORTH
  | _ => Dir EAST
  end.

(** One row of three cells; the agent on the left, a monster of the given
    strength on the middle cell, the boss on the right. *)
Definition arena (agent_strength monster : Z) : GameDriver :=
  mkGameDriver 3 1 0 1 1
    [[TerrainA; TerrainA; TerrainA]]
    {[ (0, 1) := StaticMonster monster; (0, 2) := Boss ]}
    [[[U; U; U]]] [∅] [(0, 0)] [agent_strength] 10 (0, 2).

Definition go_east (step idx : nat) (loc : Location) (s : Z)
    (known_map : ndarray) (known_objects : ObjectMap) : decision :=
  Dir EAST.

Definition no_direction (step idx : nat) (loc : Location) (s : Z)
    (known_map : ndarray) (known_objects : ObjectMap) : decision :=
  NotADirection.

(** A map of two rows for the set-up: a wall in the top left corner. *)
Definition sample_tiles : ndarray :=
  [[WALL; TerrainA; TerrainB]; [TerrainA; TerrainC; WALL]].

(** The game that [initialize_game] sets up on that map for two agents, one
    power-up and one monster, when the object indices drawn are 2, 1, 3 and
    the draws for the agents are 0, 1, 1, 3. *)
Definition sample_game : GameDriver :=
  match initialize_game (fun _ => 5) (fun _ => 3) sample_tiles
          [2; 1; 3]%nat [0; 1; 1; 3]%nat (fresh 2 3 1 1 2 10) with
  | Some (Ok g) => g
  | _ => fresh 2 3 1 1 2 10
  end.

(** * Properties of the turn engine *)

(** ** Running the primitive reads and writes *)

Lemma bind_ok {A B} (m : M A) (k : A -> M B) g a g' :
  m g = (Ok a, g') -> bind m k g = k a g'.
Proof. unfold bind. intros ->. reflexivity. Qed.

Lemma bind_raise {A B} (m : M A) (k : A -> M B) g e g' :
  m g = (Raise e, g') -> bind m k g = (Raise e, g').
Proof. unfold bind. intros ->. reflexivity. Qed.

Lemma strength_get_ok idx g s :
  agent_strengths g !! idx = Some s -> strength_get idx g = (Ok s, g).
Proof. unfold strength_get, bind, gets, orelse. simpl. intros ->. reflexivity. Qed.

Lemma strength_set_ok idx g s s' :
  agent_strengths g !! idx = Some s ->
  strength_set idx s' g = (Ok tt, set_strength idx s' g).
Proof.
  unfold strength_set, bind, gets, orelse, modify. simpl. intros ->. reflexivity.
Qed.

Lemma pay_ok idx (amount : M Z) g s c :
  agent_strengths g !! idx = Some s ->
  amount g = (Ok c, g) ->
  pay idx amount g = (Ok tt, set_strength idx (s - c) g).
Proof.
  intros Hs Hc. unfold pay.
  rewrite (bind_ok _ _ _ _ _ (strength_get_ok _ _ _ Hs)).
  rewrite (bind_ok _ _ _ _ _ Hc).
  eapply strength_set_ok; eassumption.
Qed.

Lemma gain_ok idx g s amount :
  agent_strengths g !! idx = Some s ->
  gain idx amount g = (Ok tt, set_strength idx (s + amount) g).
Proof.
  intros Hs. unfold gain.
  rewrite (bind_ok _ _ _ _ _ (strength_get_ok _ _ _ Hs)).
  eapply strength_set_ok; eassumption.
Qed.

Lemma game_map_get_ok g i j t :
  np_get (game_map g) i j = Some t -> game_map_get i j g = (Ok t, g).
Proof. unfold game_map_get, bind, gets, orelse. simpl. intros ->. reflexivity. Qed.

Lemma set_strength_lookup idx s' g s :
  agent_strengths g !! idx = Some s ->
  agent_strengths (set_strength idx s' g) !! idx = Some s'.
Proof.
  intros Hs. unfold set_strength. simpl.
  apply list_lookup_insert_eq. eapply lookup_lt_Some; eassumption.
Qed.

Section MoveResolution.

Variable tile_cost : MapTiles -> option Z.

Lemma cost_at_ok g loc t c :
  np_get (game_map g) loc.1 loc.2 = Some t ->
  tile_cost t = Some c ->
  cost_at tile_cost loc g = (Ok c, g).
Proof.
  intros Ht Hc. unfold cost_at.
  rewrite (bind_ok _ _ _ _ _ (game_map_get_ok _ _ _ _ Ht)).
  rewrite Hc. reflexivity.
Qed.

(** C1.  Move resolution has exactly two outcomes.  When the destination
    is off the map, is a wall, or costs more than the agent's strength,
    the final location is the current one and the strength goes down by
    1; otherwise the final location is the destination and the strength
    goes down by the cost of the destination's tile.  (The map is read
    where the destination is on it, and the cost table has an entry for
    the tile there unless it is a wall.) *)
Theorem move_resolution_delta (idx : nat) (current_loc dst_loc : Location)
    (g : GameDriver) (s : Z) :
  agent_strengths g !! idx = Some s ->
  (in_bounds g dst_loc ->
   exists t, np_get (game_map g) dst_loc.1 dst_loc.2 = Some t
             /\ (t <> WALL -> is_Some (tile_cost t))) ->
  (blocked tile_cost g dst_loc s
   /\ exists g',
        resolve_move tile_cost idx current_loc dst_loc g
        = (Ok current_loc, g')
        /\ agent_strengths g' !! idx = Some (s - 1)
        /\ agent_strengths g' = <[idx := s - 1]> (agent_strengths g)
        /\ g' = set_strength idx (s - 1) g)
  \/ (~ blocked tile_cost g dst_loc s
      /\ exists t c g',
           np_get (game_map g) dst_loc.1 dst_loc.2 = Some t
           /\ tile_cost t = Some c
           /\ resolve_move tile_cost idx current_loc dst_loc g
              = (Ok dst_loc, g')
           /\ agent_strengths g' !! idx = Some (s - c)
           /\ agent_strengths g' = <[idx := s - c]> (agent_strengths g)
           /\ g' = set_strength idx (s - c) g).
Proof.
  intros Hs Hmap. unfold resolve_move.
  assert (Hstay : exists g',
             (let! _ := pay idx (ret 1) in ret current_loc) g
             = (Ok current_loc, g')
             /\ agent_strengths g' !! idx = Some (s - 1)
             /\ agent_strengths g' = <[idx := s - 1]> (agent_strengths g)
             /\ g' = set_strength idx (s - 1) g).
  { exists (set_strength idx (s - 1) g). split.
    - erewrite bind_ok; [reflexivity|].
      eapply pay_ok; [eassumption|reflexivity].
    - split; [eapply set_strength_lookup; eassumption|].
      split; reflexivity. }
  rewrite (bind_ok (gets id) _ g g g eq_refl).
  destruct (decide (~ in_bounds g dst_loc)) as [Hout | Hin].
  { left. split; [left; exact Hout | exact Hstay]. }
  apply dec_stable in Hin.
  destruct (Hmap Hin) as (t & Ht & Hcost).
  rewrite (bind_ok _ _ _ _ _ (game_map_get_ok _ _ _ _ Ht)).
  destruct (decide (t = WALL)) as [-> | Hwall].
  { left. split; [right; left; exact Ht | exact Hstay]. }
  destruct (Hcost Hwall) as [c Hc].
  rewrite (bind_ok _ _ _ _ _ (strength_get_ok _ _ _ Hs)).
  rewrite (bind_ok _ _ _ _ _ (cost_at_ok _ _ _ _ Ht Hc)).
  destruct (decide (s < c)) as [Hlt | Hge].
  { left. split; [right; right; exists t, c; auto | exact Hstay]. }
  right. split.
  - intros [Hout | [Hw | (t' & c' & Ht' & Hc' & Hlt)]].
    + exact (Hout Hin).
    + congruence.
    + assert (t' = t) by congruence. subst t'.
      assert (c' = c) by congruence. subst c'. lia.
  - exists t, c, (set_strength idx (s - c) g).
    split; [exact Ht|]. split; [exact Hc|]. split.
    + erewrite bind_ok; [reflexivity|].
      eapply pay_ok; [eassumption|]. eapply cost_at_ok; eassumption.
    + split; [eapply set_strength_lookup; eassumption|].
      split; reflexivity.
Qed.

End MoveResolution.

Lemma move_resolution_delta_witness :
  let g := with_game_map [[TerrainA; TerrainB; TerrainC]] (arena 5 3) in
  agent_strengths g !! 0%nat = Some 5
  /\ (resolve_move sample_cost 0 (0, 0) (0, 1) g).1 = Ok (0, 1)
  /\ agent_strengths (resolve_move sample_cost 0 (0, 0) (0, 1) g).2 = [2]
  /\ ((blocked sample_cost g (0, 1) 5
       /\ exists g',
            resolve_move sample_cost 0 (0, 0) (0, 1) g = (Ok (0, 0), g')
            /\ agent_strengths g' !! 0%nat = Some (5 - 1)
            /\ agent_strengths g' = <[0%nat := 5 - 1]> (agent_strengths g)
            /\ g' = set_strength 0 (5 - 1) g)
      \/ (~ blocked sample_cost g (0, 1) 5
          /\ exists t c g',
               np_get (game_map g) 0 1 = Some t
               /\ sample_cost t = Some c
               /\ resolve_move sample_cost 0 (0, 0) (0, 1) g
                  = (Ok (0, 1), g')
               /\ agent_strengths g' !! 0%nat = Some (5 - c)
               /\ agent_strengths g' = <[0%nat := 5 - c]> (agent_strengths g)
               /\ g' = set_strength 0 (5 - c) g)).
Proof.
  intros g.
  split; [reflexivity|].
  split; [vm_compute; reflexivity|].
  split; [vm_compute; reflexivity|].
  apply (move_resolution_delta sample_cost 0 (0, 0) (0, 1) g 5).
  - reflexivity.
  - intros _. exists TerrainB. split; [reflexivity|].
    intros _. exists 3. reflexivity.
Defined.

(** A destination that costs 10 blocks an agent of strength 5: it stays and
    pays 1. *)
Lemma move_resolution_delta_blocked_witness :
  let g := with_game_map [[TerrainA; TerrainB; TerrainC]] (arena 5 3) in
  (resolve_move sample_cost 0 (0, 1) (0, 2) g).1 = Ok (0, 1)
  /\ agent_strengths (resolve_move sample_cost 0 (0, 1) (0, 2) g).2 = [4]
  /\ blocked sample_cost g (0, 2) 5.
Proof.
  intros g.
  split; [vm_compute; reflexivity|].
  split; [vm_compute; reflexivity|].
  right. right. exists TerrainC, 10.
  split; [reflexivity|]. split; [reflexivity | lia].
Qed.

(** ** Object interaction: retraction and combat *)

Lemma with_agent_objects_same g :
  with_agent_objects (agent_objects g) g = g.
Proof. destruct g; reflexivity. Qed.

Lemma forget_ok idx final_loc g :
  (idx < length (agent_objects g))%nat ->
  exists known,
    forget idx final_loc g = (Ok tt, with_agent_objects known g)
    /\ length known = length (agent_objects g).
Proof.
  intros Hlen.
  destruct (lookup_lt_is_Some_2 _ _ Hlen) as [known Hknown].
  assert (Hget : agent_objects_get idx g = (Ok known, g)).
  { unfold agent_objects_get, bind, gets, orelse; simpl.
    rewrite Hknown. reflexivity. }
  unfold forget. rewrite (bind_ok _ _ _ _ _ Hget).
  destruct (decide (is_Some (known !! final_loc))).
  - rewrite (bind_ok _ _ _ _ _ Hget).
    exists (<[idx := delete final_loc known]> (agent_objects g)).
    split; [reflexivity | apply length_insert].
  - exists (agent_objects g). rewrite with_agent_objects_same.
    split; reflexivity.
Qed.

Lemma purge_loop_ok idx final_loc (l : list nat) g :
  (idx < length (agent_objects g))%nat ->
  exists known,
    for_ l (fun _ : nat => forget idx final_loc) g
    = (Ok tt, with_agent_objects known g)
    /\ length known = length (agent_objects g).
Proof.
  revert g. induction l as [|i l IH]; intros g Hlen.
  - exists (agent_objects g). rewrite with_agent_objects_same. split; reflexivity.
  - destruct (forget_ok idx final_loc g Hlen) as (known1 & H1 & Hlen1).
    cbn [for_]. rewrite (bind_ok _ _ _ _ _ H1).
    destruct (IH (with_agent_objects known1 g)) as (known2 & H2 & Hlen2).
    { simpl. lia. }
    exists known2. split; [exact H2 | simpl in Hlen2; lia].
Qed.

Lemma purge_ok idx final_loc g :
  (idx < length (agent_objects g))%nat ->
  exists known, purge idx final_loc g = (Ok tt, with_agent_objects known g).
Proof.
  intros Hlen. unfold purge.
  rewrite (bind_ok (gets agents) _ g (agents g) g eq_refl).
  destruct (purge_loop_ok idx final_loc (seq 0 (agents g)) g Hlen)
    as (known & H & _).
  exists known. exact H.
Qed.

Lemma set_strength_twice idx s s' g :
  set_strength idx s' (set_strength idx s g) = set_strength idx s' g.
Proof.
  unfold set_strength, with_agent_strengths. simpl.
  rewrite list_insert_insert_eq. reflexivity.
Qed.

(** The division reads and writes no field of the driver. *)
Lemma true_div_run a b g :
  true_div a b g
  = (if decide (b = 0) then Raise ZeroDivisionError
     else match int_true_div a b with
          | S754_infinity _ => Raise OverflowError
          | q => Ok q
          end, g).
Proof.
  unfold true_div. destruct (decide (b = 0)); [reflexivity|].
  destruct (int_true_div a b); reflexivity.
Qed.

Lemma true_div_ok a b g q g' :
  true_div a b g = (Ok q, g') -> b <> 0 /\ q = int_true_div a b /\ g' = g.
Proof.
  rewrite true_div_run. destruct (decide (b = 0)); [discriminate|].
  destruct (int_true_div a b); intros H; try discriminate;
    injection H as <- <-; auto.
Qed.

Section Combat.

Variable random : nat -> float.

Lemma fight_runs step idx final_loc strength g s win_chance :
  agent_strengths g !! idx = Some s ->
  (idx < length (agent_objects g))%nat ->
  true_div s (s + strength) g = (Ok win_chance, g) ->
  if float_gt (random step) win_chance
  then exists known,
      fight random step idx final_loc strength g
      = (Ok tt, after_win idx final_loc strength known g)
  else fight random step idx final_loc strength g
       = (Ok tt, set_strength idx 0 g).
Proof.
  intros Hs Hlen Hdiv. unfold fight.
  rewrite (bind_ok _ _ _ _ _ (strength_get_ok _ _ _ Hs)).
  rewrite (bind_ok _ _ _ _ _ (strength_get_ok _ _ _ Hs)).
  rewrite (bind_ok _ _ _ _ _ Hdiv).
  destruct (float_gt (random step) win_chance).
  - rewrite (bind_ok (gets initial_strength) _ g _ g eq_refl).
    rewrite (bind_ok _ _ _ _ _ (strength_set_ok _ _ _ (initial_strength g) Hs)).
    erewrite bind_ok; cycle 1.
    { apply gain_ok. eapply set_strength_lookup; eassumption. }
    rewrite set_strength_twice.
    unfold del_object at 1.
    erewrite (bind_ok (modify _)); [|reflexivity].
    match goal with
    | |- exists _, purge _ _ ?g1 = _ =>
        destruct (purge_ok idx final_loc g1) as [known Hp]
    end.
    { simpl. exact Hlen. }
    exists known. rewrite Hp. reflexivity.
  - eapply strength_set_ok; eassumption.
Qed.

(** C2.  A fight with a monster, [win_chance] being the [float] that the
    division of the agent's strength by the sum of the two strengths
    yields: when the draw is strictly greater than [win_chance], the
    agent's strength becomes the initial one plus the monster's and the
    monster leaves the object map; otherwise the agent's strength becomes 0
    and the monster stays. *)
Theorem combat_resolution (step idx : nat) (final_loc : Location)
    (g : GameDriver) (s strength : Z) (win_chance : float) :
  objects g !! final_loc = Some (StaticMonster strength) ->
  agent_strengths g !! idx = Some s ->
  (idx < length (agent_objects g))%nat ->
  true_div s (s + strength) g = (Ok win_chance, g) ->
  win_chance = int_true_div s (s + strength)
  /\ (float_gt (random step) win_chance = true ->
      exists g',
        interact random step idx final_loc g = (Ok tt, g')
        /\ agent_strengths g' !! idx = Some (initial_strength g + strength)
        /\ agent_strengths g'
           = <[idx := initial_strength g + strength]> (agent_strengths g)
        /\ objects g' = delete final_loc (objects g)
        /\ objects g' !! final_loc = None)
  /\ (float_gt (random step) win_chance = false ->
      exists g',
        interact random step idx final_loc g = (Ok tt, g')
        /\ g' = set_strength idx 0 g
        /\ agent_strengths g' !! idx = Some 0
        /\ agent_strengths g' = <[idx := 0]> (agent_strengths g)
        /\ objects g' = objects g
        /\ objects g' !! final_loc = Some (StaticMonster strength)).
Proof.
  intros Hobj Hs Hlen Hdiv.
  assert (Hint : interact random step idx final_loc g
                 = fight random step idx final_loc strength g).
  { unfold interact. rewrite (bind_ok (gets objects) _ g _ g eq_refl).
    rewrite Hobj. reflexivity. }
  rewrite Hint.
  pose proof (fight_runs step idx final_loc strength g s win_chance
                Hs Hlen Hdiv) as Hrun.
  split; [apply (true_div_ok _ _ _ _ _ Hdiv)|].
  split.
  - intros Hwin. rewrite Hwin in Hrun.
    destruct Hrun as [known Hrun].
    exists (after_win idx final_loc strength known g).
    split; [exact Hrun|]. simpl.
    split; [apply list_lookup_insert_eq; eapply lookup_lt_Some; eassumption|].
    split; [reflexivity|]. split; [reflexivity|].
    apply lookup_delete_eq.
  - intros Hlose. rewrite Hlose in Hrun.
    exists (set_strength idx 0 g).
    split; [exact Hrun|]. split; [reflexivity|].
    split; [eapply set_strength_lookup; eassumption|].
    split; [reflexivity|]. split; [reflexivity | exact Hobj].
Qed.

(** With no strength left, against a monster of positive strength, the
    quotient is 0 and every draw above 0 is a won fight. *)
Lemma fight_without_strength step idx final_loc strength g :
  agent_strengths g !! idx = Some 0 ->
  (idx < length (agent_objects g))%nat ->
  0 < strength ->
  float_gt (random step) (S754_zero false) = true ->
  exists known,
    fight random step idx final_loc strength g
    = (Ok tt, after_win idx final_loc strength known g).
Proof.
  intros Hs Hlen Hpos Hdraw.
  assert (Hdiv : true_div 0 (0 + strength) g = (Ok (S754_zero false), g)).
  { rewrite true_div_run. rewrite decide_False by lia.
    destruct strength; [lia | reflexivity | lia]. }
  pose proof (fight_runs step idx final_loc strength g 0 _ Hs Hlen Hdiv)
    as Hrun.
  rewrite Hdraw in Hrun. exact Hrun.
Qed.

(** With no strength on either side the division raises. *)
Lemma fight_zero_by_zero step idx final_loc g :
  agent_strengths g !! idx = Some 0 ->
  fight random step idx final_loc 0 g = (Raise ZeroDivisionError, g).
Proof.
  intros Hs. unfold fight.
  rewrite (bind_ok _ _ _ _ _ (strength_get_ok _ _ _ Hs)).
  rewrite (bind_ok _ _ _ _ _ (strength_get_ok _ _ _ Hs)).
  reflexivity.
Qed.

End Combat.

Lemma combat_resolution_witness :
  objects (arena 4 3) !! (0, 1) = Some (StaticMonster 3)
  /\ agent_strengths (arena 4 3) !! 0%nat = Some 4
  /\ true_div 4 (4 + 3) (arena 4 3)
     = (Ok (int_true_div 4 (4 + 3)), arena 4 3)
  /\ float_gt (half 0) (int_true_div 4 (4 + 3)) = false
  /\ (interact half 0 0 (0, 1) (arena 4 3)).1 = Ok tt
  /\ agent_strengths (interact half 0 0 (0, 1) (arena 4 3)).2 = [0]
  /\ objects (interact half 0 0 (0, 1) (arena 4 3)).2 !! (0, 1)
     = Some (StaticMonster 3)
  /\ exists g',
       interact half 0 0 (0, 1) (arena 4 3) = (Ok tt, g')
       /\ g' = set_strength 0 0 (arena 4 3)
       /\ agent_strengths g' !! 0%nat = Some 0
       /\ agent_strengths g' = <[0%nat := 0]> (agent_strengths (arena 4 3))
       /\ objects g' = objects (arena 4 3)
       /\ objects g' !! (0, 1) = Some (StaticMonster 3).
Proof.
  assert (Hdiv : true_div 4 (4 + 3) (arena 4 3)
                 = (Ok (int_true_div 4 (4 + 3)), arena 4 3)).
  { vm_compute. reflexivity. }
  assert (Hlose : float_gt (half 0) (int_true_div 4 (4 + 3)) = false).
  { vm_compute. reflexivity. }
  split; [reflexivity|]. split; [reflexivity|]. split; [exact Hdiv|].
  split; [exact Hlose|].
  split; [vm_compute; reflexivity|].
  split; [vm_compute; reflexivity|].
  split; [vm_compute; reflexivity|].
  refine (proj2 (proj2 (combat_resolution half 0 0 (0, 1) (arena 4 3) 4 3
                          (int_true_div 4 (4 + 3)) _ _ _ Hdiv)) Hlose).
  - reflexivity.
  - reflexivity.
  - simpl. lia.
Defined.

(** The quotient is rounded: 4 / 5 is the [float]
    [7205759403792794 * 2^-53], a little above four fifths, and a draw of
    that very value is not strictly greater, so that the fight is lost. *)
Lemma rounded_quotient_is_compared :
  let draw : nat -> float :=
    fun _ => S754_finite false 7205759403792794 (-53) in
  int_true_div 4 (4 + 1) = S754_finite false 7205759403792794 (-53)
  /\ float_gt (draw 0%nat) (int_true_div 4 (4 + 1)) = false
  /\ (interact draw 0 0 (0, 1) (arena 4 1)).1 = Ok tt
  /\ agent_strengths (interact draw 0 0 (0, 1) (arena 4 1)).2 = [0]
  /\ objects (interact draw 0 0 (0, 1) (arena 4 1)).2 !! (0, 1)
     = Some (StaticMonster 1).
Proof. vm_compute. repeat split; reflexivity. Qed.

(** C3.  In the corridor, both agents see the power-up on their first
    turns; agent 0 then steps onto it.  The power-up leaves the object map
    and agent 0's private object map, and stays in agent 1's: the loop
    after the removal deletes from the acting agent's map on every
    iteration. *)
Theorem retraction_skips_other_agents :
  let g' := (play_from sample_cost corridor_agents half 3 0 corridor).2 in
  objects corridor !! (0, 1) = Some (PowerUp 5)
  /\ agent_locations g' !! 0%nat = Some (0, 1)
  /\ objects g' !! (0, 1) = None
  /\ ~ knows_object g' 0 (0, 1)
  /\ knows_object g' 1 (0, 1).
Proof.
  split; [reflexivity|]. split; [vm_compute; reflexivity|].
  split; [vm_compute; reflexivity|]. split.
  - intros (known & Hknown & Hsome). vm_compute in Hknown.
    injection Hknown as <-. destruct Hsome as [o Ho]. vm_compute in Ho.
    discriminate.
  - eexists. split; [vm_compute; reflexivity|].
    exists (PowerUp 5). vm_compute. reflexivity.
Qed.

(** C4.  In the arena the agent has strength 1 and steps east onto a
    monster of strength 3: the step costs 1, the fight starts with strength
    0, the draw is one half.  The fight is won: the agent ends with
    strength 10 + 3, the monster is gone, and the game goes on. *)
Theorem fight_without_strength_is_won :
  let g := arena 1 3 in
  let g' := (interact half 0 0 (0, 1) (set_strength 0 0 g)).2 in
  resolve_move sample_cost 0 (0, 0) (0, 1) g = (Ok (0, 1), set_strength 0 0 g)
  /\ int_true_div 0 (0 + 3) = S754_zero false
  /\ agent_strengths g' = [13]
  /\ objects g' !! (0, 1) = None
  /\ (turn sample_cost go_east half 0 g).1 = Ok Continue
  /\ agent_strengths (turn sample_cost go_east half 0 g).2 = [13].
Proof. vm_compute. repeat split; reflexivity. Qed.

(** C5.  In the arena the agent has strength 6 and steps east onto a
    monster of strength 0: the fight starts with strength 5, the quotient is
    1, the draw is one half.  The fight is lost: the agent ends with
    strength 0, the monster stays, and the agent is dead. *)
Theorem fight_against_no_strength_is_lost :
  let g := arena 6 0 in
  let g' := (interact half 0 0 (0, 1) (set_strength 0 5 g)).2 in
  resolve_move sample_cost 0 (0, 0) (0, 1) g = (Ok (0, 1), set_strength 0 5 g)
  /\ int_true_div 5 (5 + 0) = S754_finite false 4503599627370496 (-52)
  /\ agent_strengths g' = [0]
  /\ objects g' !! (0, 1) = Some (StaticMonster 0)
  /\ (turn sample_cost go_east half 0 g).1 = Ok Died
  /\ play sample_cost go_east half 1 g
     = (AgentDied 0, (turn sample_cost go_east half 0 g).2).
Proof. vm_compute. repeat split; reflexivity. Qed.

(** C6.  In the arena the agent has strength 1 and steps east onto a
    monster of strength 0: the fight starts with strength 0 on both sides,
    and the division raises [ZeroDivisionError]; the run is aborted. *)
Theorem fight_zero_by_zero_raises :
  let g := arena 1 0 in
  resolve_move sample_cost 0 (0, 0) (0, 1) g = (Ok (0, 1), set_strength 0 0 g)
  /\ interact half 0 0 (0, 1) (set_strength 0 0 g)
     = (Raise ZeroDivisionError, set_strength 0 0 g)
  /\ (turn sample_cost go_east half 0 g).1 = Raise ZeroDivisionError
  /\ (play sample_cost go_east half 1 g).1 = Aborted ZeroDivisionError.
Proof. vm_compute. repeat split; reflexivity. Qed.

(** ** What the parts of a turn leave alone

    A relation [R] between the driver before and after is carried through
    the monad: through every read, and through the writes that [R] is told
    to tolerate. *)

Section Preservation.

Variable R : GameDriver -> GameDriver -> Prop.
Hypothesis R_refl : forall g, R g g.
Hypothesis R_trans : forall g1 g2 g3, R g1 g2 -> R g2 g3 -> R g1 g3.

Lemma preserves_ret {A} (a : A) : preserves R (ret a).
Proof. intros g. apply R_refl. Qed.

Lemma preserves_raise {A} (e : exn) : preserves R (@raise A e).
Proof. intros g. apply R_refl. Qed.

Lemma preserves_gets {A} (f : GameDriver -> A) : preserves R (gets f).
Proof. intros g. apply R_refl. Qed.

Lemma preserves_orelse {A} (e : exn) (o : option A) : preserves R (orelse e o).
Proof. intros g. destruct o; apply R_refl. Qed.

Lemma preserves_modify (f : GameDriver -> GameDriver) :
  (forall g, R g (f g)) -> preserves R (modify f).
Proof. intros Hf g. apply Hf. Qed.

Lemma preserves_bind {A B} (m : M A) (k : A -> M B) :
  preserves R m -> (forall a, preserves R (k a)) -> preserves R (bind m k).
Proof.
  intros Hm Hk g. unfold bind. specialize (Hm g).
  destruct (m g) as [[a | e] g']; simpl in Hm.
  - eapply R_trans; [exact Hm | apply Hk].
  - exact Hm.
Qed.

Lemma preserves_for {A} (l : list A) (body : A -> M unit) :
  (forall x, preserves R (body x)) -> preserves R (for_ l body).
Proof.
  intros Hbody. induction l as [|x l IH]; simpl.
  - apply preserves_ret.
  - apply preserves_bind; [apply Hbody | intros _; exact IH].
Qed.

Ltac preserve :=
  repeat first
    [ assumption
    | match goal with
      | |- preserves _ (ret _) => apply preserves_ret
      | |- preserves _ (raise _) => apply preserves_raise
      | |- preserves _ (gets _) => apply preserves_gets
      | |- preserves _ (orelse _ _) => apply preserves_orelse
      | |- preserves _ (bind _ _) => apply preserves_bind; [|intros ?]
      | |- preserves _ (for_ _ _) => apply preserves_for; intros ?
      | |- preserves _ (modify _) => apply preserves_modify; intros ?
      | |- preserves _ (if ?c then _ else _) => destruct c
      | |- preserves _ (match ?x with _ => _ end) => destruct x
      end ].

Lemma location_get_preserves idx : preserves R (location_get idx).
Proof. unfold location_get. preserve. Qed.

Lemma strength_get_preserves idx : preserves R (strength_get idx).
Proof. unfold strength_get. preserve. Qed.

Lemma agent_map_get_preserves idx : preserves R (agent_map_get idx).
Proof. unfold agent_map_get. preserve. Qed.

Lemma agent_objects_get_preserves idx : preserves R (agent_objects_get idx).
Proof. unfold agent_objects_get. preserve. Qed.

Lemma game_map_get_preserves i j : preserves R (game_map_get i j).
Proof. unfold game_map_get. preserve. Qed.

(** A relation that tolerates every write to the private map of agent
    [idx] is carried through [reveal]. *)
Lemma reveal_preserves idx i j :
  (forall a g, R g (with_agent_maps (<[idx := a]> (agent_maps g)) g)) ->
  preserves R (reveal idx i j).
Proof.
  intros Hmaps.
  pose proof (agent_map_get_preserves idx).
  pose proof (game_map_get_preserves i j).
  unfold reveal, agent_map_set. preserve. apply Hmaps.
Qed.

Variable idx : nat.
Variable tile_cost : MapTiles -> option Z.
Variable agent_step :
  nat -> nat -> Location -> Z -> ndarray -> ObjectMap -> decision.
Variable random : nat -> float.

(** The relation tolerates what the visibility refresh of agent [idx]
    writes. *)
Hypothesis R_agent_objects :
  forall known g,
    R g (with_agent_objects (<[idx := known]> (agent_objects g)) g).
Hypothesis R_reveal : forall i j, preserves R (reveal idx i j).

Lemma notice_preserves i j : preserves R (notice idx i j).
Proof.
  pose proof (agent_objects_get_preserves idx).
  unfold notice, agent_objects_put. preserve. apply R_agent_objects.
Qed.

Lemma update_map_preserves current_loc : preserves R (update_map idx current_loc).
Proof.
  unfold update_map. apply preserves_for. intros off. unfold observe.
  apply preserves_bind; [apply R_reveal | intros _; apply notice_preserves].
Qed.

Lemma ask_preserves step : preserves R (ask agent_step step idx).
Proof.
  pose proof (location_get_preserves idx).
  pose proof (strength_get_preserves idx).
  pose proof (agent_map_get_preserves idx).
  pose proof (agent_objects_get_preserves idx).
  unfold ask. preserve.
Qed.

(** It also tolerates a write to the strength of agent [idx] and the
    removal of an object. *)
Hypothesis R_strengths : forall s g, R g (set_strength idx s g).
Hypothesis R_objects :
  forall loc g, R g (with_objects (delete loc (objects g)) g).

Lemma strength_set_preserves s : preserves R (strength_set idx s).
Proof.
  intros g. unfold strength_set, bind, gets, orelse, modify. simpl.
  destruct (agent_strengths g !! idx); simpl; [apply R_strengths | apply R_refl].
Qed.

Lemma pay_preserves (amount : M Z) :
  preserves R amount -> preserves R (pay idx amount).
Proof.
  intros Hamount.
  pose proof (strength_get_preserves idx).
  pose proof (strength_set_preserves).
  unfold pay. preserve. auto.
Qed.

Lemma gain_preserves amount : preserves R (gain idx amount).
Proof.
  pose proof (strength_get_preserves idx).
  pose proof (strength_set_preserves).
  unfold gain. preserve. auto.
Qed.

Lemma cost_at_preserves loc : preserves R (cost_at tile_cost loc).
Proof.
  pose proof (game_map_get_preserves loc.1 loc.2).
  unfold cost_at. preserve.
Qed.

Lemma resolve_move_preserves current_loc dst_loc :
  preserves R (resolve_move tile_cost idx current_loc dst_loc).
Proof.
  pose proof (game_map_get_preserves dst_loc.1 dst_loc.2).
  pose proof (strength_get_preserves idx).
  pose proof (cost_at_preserves dst_loc).
  pose proof (pay_preserves (ret 1) (preserves_ret 1)).
  pose proof (pay_preserves (cost_at tile_cost dst_loc) (cost_at_preserves dst_loc)).
  unfold resolve_move. preserve.
Qed.

Lemma purge_preserves final_loc : preserves R (purge idx final_loc).
Proof.
  pose proof (agent_objects_get_preserves idx).
  unfold purge, forget, agent_objects_put. preserve; apply R_agent_objects.
Qed.

Lemma fight_preserves step final_loc strength :
  preserves R (fight random step idx final_loc strength).
Proof.
  pose proof (strength_get_preserves idx).
  pose proof (strength_set_preserves).
  pose proof (gain_preserves strength).
  pose proof (purge_preserves final_loc).
  unfold fight, true_div, del_object. preserve; auto.
Qed.

Lemma interact_preserves step final_loc :
  preserves R (interact random step idx final_loc).
Proof.
  pose proof (purge_preserves final_loc).
  unfold interact, del_object. preserve;
    auto using gain_preserves, fight_preserves.
Qed.

Lemma act_preserves step :
  preserves R (act tile_cost agent_step random step idx).
Proof.
  pose proof (location_get_preserves idx).
  pose proof (ask_preserves step).
  unfold act. preserve;
    auto using update_map_preserves, resolve_move_preserves,
      interact_preserves.
Qed.

(** And, for the end of the iteration, a write to the location of agent
    [idx]. *)
Hypothesis R_locations :
  forall loc g,
    R g (with_agent_locations (<[idx := loc]> (agent_locations g)) g).

Lemma location_set_preserves loc : preserves R (location_set idx loc).
Proof.
  intros g. unfold location_set, bind, gets, orelse, modify. simpl.
  destruct (agent_locations g !! idx); simpl; [apply R_locations | apply R_refl].
Qed.

Lemma finish_preserves final_loc : preserves R (finish idx final_loc).
Proof.
  pose proof (strength_get_preserves idx).
  pose proof (location_set_preserves final_loc).
  unfold finish. preserve.
Qed.

End Preservation.

(** ** The end of a turn *)

Lemma keeps_placement_refl g : keeps_placement g g.
Proof. repeat split. Qed.

Lemma keeps_placement_trans g1 g2 g3 :
  keeps_placement g1 g2 -> keeps_placement g2 g3 -> keeps_placement g1 g3.
Proof.
  intros (H1 & H2 & H3) (H4 & H5 & H6). repeat split; congruence.
Qed.

Lemma act_keeps_placement tile_cost agent_step random step idx g :
  keeps_placement g (act tile_cost agent_step random step idx g).2.
Proof.
  apply (act_preserves keeps_placement keeps_placement_refl
           keeps_placement_trans idx tile_cost agent_step random).
  - intros known g0. repeat split.
  - intros i j. apply reveal_preserves.
    + apply keeps_placement_refl.
    + apply keeps_placement_trans.
    + intros a g0. repeat split.
  - intros l g0. repeat split.
  - intros o g0. repeat split.
Qed.

Lemma finish_runs idx final_loc g s :
  is_Some (agent_locations g !! idx) ->
  agent_strengths g !! idx = Some s ->
  finish idx final_loc g
  = (Ok (if decide (s <= 0) then Died
         else if decide (final_loc = goal_loc g) then Won else Continue),
     with_agent_locations (<[idx := final_loc]> (agent_locations g)) g).
Proof.
  intros [loc Hloc] Hs. unfold finish.
  erewrite bind_ok; cycle 1.
  { unfold location_set, bind, gets, orelse, modify. simpl.
    rewrite Hloc. reflexivity. }
  erewrite bind_ok; cycle 1.
  { apply strength_get_ok. simpl. exact Hs. }
  destruct (decide (s <= 0)); [reflexivity|].
  erewrite (bind_ok (gets goal_loc)); [|reflexivity]. simpl.
  destruct (decide (final_loc = goal_loc g)); reflexivity.
Qed.

Section Termination.

Variable tile_cost : MapTiles -> option Z.
Variable agent_step :
  nat -> nat -> Location -> Z -> ndarray -> ObjectMap -> decision.
Variable random : nat -> float.

(** C8.  When the move and the interaction of iteration [step] leave the
    acting agent [idx] on [final_loc] with strength [s]: if [s <= 0] the
    run ends with that agent dead, whatever [final_loc] is; otherwise, if
    [final_loc] is the goal, the run ends with that agent the winner;
    otherwise the loop goes on with iteration [step + 1], whose acting
    agent is the next one in the cycle. *)
Theorem termination_check (fuel step : nat) (g g3 : GameDriver)
    (final_loc : Location) (s : Z) :
  let idx := (step mod agents g)%nat in
  act tile_cost agent_step random step idx g = (Ok final_loc, g3) ->
  agent_strengths g3 !! idx = Some s ->
  let g' := with_agent_locations (<[idx := final_loc]> (agent_locations g3)) g3 in
  (s <= 0 ->
   play_from tile_cost agent_step random (S fuel) step g = (AgentDied idx, g'))
  /\ (0 < s -> final_loc = goal_loc g ->
      play_from tile_cost agent_step random (S fuel) step g = (AgentWon idx, g'))
  /\ (0 < s -> final_loc <> goal_loc g ->
      play_from tile_cost agent_step random (S fuel) step g
      = play_from tile_cost agent_step random fuel (S step) g'
      /\ agents g' = agents g
      /\ (S step mod agents g' = S idx mod agents g)%nat).
Proof.
  intros idx Hact Hs g'.
  pose proof (act_keeps_placement tile_cost agent_step random step idx g)
    as (Hn & Hlocs & Hgoal).
  rewrite Hact in Hn, Hlocs, Hgoal. simpl in Hn, Hlocs, Hgoal.
  assert (Hloc : is_Some (agent_locations g3 !! idx)).
  { rewrite Hlocs.
    unfold act in Hact. unfold bind at 1 in Hact.
    destruct (location_get idx g) as [[loc | e] g0] eqn:E; [|discriminate].
    unfold location_get, bind, gets, orelse in E. simpl in E.
    destruct (agent_locations g !! idx); [eauto | discriminate]. }
  assert (Hturn : turn tile_cost agent_step random step g
                  = finish idx final_loc g3).
  { unfold turn. rewrite (bind_ok (gets agents) _ g _ g eq_refl).
    fold idx. rewrite (bind_ok _ _ _ _ _ Hact). reflexivity. }
  pose proof (finish_runs idx final_loc g3 s Hloc Hs) as Hfin.
  fold g' in Hfin. rewrite Hgoal in Hfin.
  cbn [play_from]. rewrite Hturn, Hfin. fold idx.
  split; [|split].
  - intros Hle. destruct (decide (s <= 0)); [reflexivity | lia].
  - intros Hpos Heq. destruct (decide (s <= 0)); [lia|].
    destruct (decide (final_loc = goal_loc g)); [reflexivity | contradiction].
  - intros Hpos Hne. destruct (decide (s <= 0)); [lia|].
    destruct (decide (final_loc = goal_loc g)); [contradiction|].
    split; [reflexivity|]. split; [exact Hn|].
    simpl. rewrite Hn. unfold idx.
    destruct (agents g) as [|k]; [reflexivity|].
    replace (S step) with (1 + step)%nat by reflexivity.
    replace (S (step mod S k)) with (1 + step mod S k)%nat by reflexivity.
    rewrite Nat.Div0.add_mod_idemp_r. reflexivity.
Qed.

End Termination.

Lemma termination_check_witness :
  let g3 := (act sample_cost go_east half 0 0 (arena 6 0)).2 in
  act sample_cost go_east half 0 0 (arena 6 0) = (Ok (0, 1), g3)
  /\ agent_strengths g3 !! 0%nat = Some 0
  /\ play_from sample_cost go_east half 1 0 (arena 6 0)
     = (AgentDied 0,
        with_agent_locations (<[0%nat := (0, 1)]> (agent_locations g3)) g3).
Proof.
  intros g3.
  assert (Hact : act sample_cost go_east half 0 0 (arena 6 0) = (Ok (0, 1), g3)).
  { vm_compute. reflexivity. }
  assert (Hs : agent_strengths g3 !! 0%nat = Some 0).
  { vm_compute. reflexivity. }
  split; [exact Hact|]. split; [exact Hs|].
  refine (proj1 (termination_check sample_cost go_east half 0 0 (arena 6 0) g3
                   (0, 1) 0 Hact Hs) _).
  lia.
Defined.

(** ** An answer that is not a direction *)

Lemma same_but_knowledge_of_refl idx g : same_but_knowledge_of idx g g.
Proof. unfold same_but_knowledge_of. repeat split; auto. Qed.

Lemma same_but_knowledge_of_trans idx g1 g2 g3 :
  same_but_knowledge_of idx g1 g2 -> same_but_knowledge_of idx g2 g3 ->
  same_but_knowledge_of idx g1 g3.
Proof.
  unfold same_but_knowledge_of.
  intros (A1 & A2 & A3 & A4 & A5 & A6 & A7 & A8 & A9 & A10 & A11 & A12 & A13)
         (B1 & B2 & B3 & B4 & B5 & B6 & B7 & B8 & B9 & B10 & B11 & B12 & B13).
  repeat split; try congruence.
  - intros a Ha. rewrite B12, A12; auto.
  - intros a Ha. rewrite B13, A13; auto.
Qed.

Lemma update_map_same_but_knowledge idx current_loc g :
  same_but_knowledge_of idx g (update_map idx current_loc g).2.
Proof.
  apply (update_map_preserves (same_but_knowledge_of idx)
           (same_but_knowledge_of_refl idx) (same_but_knowledge_of_trans idx)).
  - intros known g0. unfold same_but_knowledge_of. simpl.
    repeat split; auto.
    intros a Ha. apply list_lookup_insert_ne. auto.
  - intros i j. apply reveal_preserves.
    + apply same_but_knowledge_of_refl.
    + apply same_but_knowledge_of_trans.
    + intros a g0. unfold same_but_knowledge_of. simpl.
      repeat split; auto.
      intros a' Ha. apply list_lookup_insert_ne. auto.
Qed.

Section InvalidDecision.

Variable tile_cost : MapTiles -> option Z.
Variable agent_step :
  nat -> nat -> Location -> Z -> ndarray -> ObjectMap -> decision.
Variable random : nat -> float.

(** C7, as the code has it.  When the visibility refresh of the acting
    agent [idx] has run and the agent's answer is not a direction, the
    iteration raises [AssertionError] and the run is aborted before any
    move or interaction: the game map, the objects, every agent's
    location and strength and the private knowledge of every other agent
    are as they were when the iteration began.  The private map and the
    private object map of the acting agent are as the refresh left
    them. *)
Theorem invalid_decision_aborts (fuel step : nat) (g g1 : GameDriver)
    (current_loc : Location) :
  let idx := (step mod agents g)%nat in
  agent_locations g !! idx = Some current_loc ->
  update_map idx current_loc g = (Ok tt, g1) ->
  ask agent_step step idx g1 = (Ok NotADirection, g1) ->
  turn tile_cost agent_step random step g = (Raise AssertionError, g1)
  /\ play_from tile_cost agent_step random (S fuel) step g
     = (Aborted AssertionError, g1)
  /\ same_but_knowledge_of idx g g1.
Proof.
  intros idx Hloc Hrefresh Hask.
  assert (Hturn : turn tile_cost agent_step random step g
                  = (Raise AssertionError, g1)).
  { unfold turn. rewrite (bind_ok (gets agents) _ g _ g eq_refl). fold idx.
    apply bind_raise. unfold act.
    erewrite bind_ok; cycle 1.
    { unfold location_get, bind, gets, orelse. simpl. rewrite Hloc. reflexivity. }
    rewrite (bind_ok _ _ _ _ _ Hrefresh).
    rewrite (bind_ok _ _ _ _ _ Hask). reflexivity. }
  split; [exact Hturn|]. split.
  - cbn [play_from]. rewrite Hturn. reflexivity.
  - pose proof (update_map_same_but_knowledge idx current_loc g) as H.
    rewrite Hrefresh in H. exact H.
Qed.

End InvalidDecision.

Lemma invalid_decision_aborts_witness :
  let g1 := (update_map 0 (0, 0) (arena 5 3)).2 in
  turn sample_cost no_direction half 0 (arena 5 3) = (Raise AssertionError, g1)
  /\ play_from sample_cost no_direction half 1 0 (arena 5 3)
     = (Aborted AssertionError, g1)
  /\ same_but_knowledge_of 0 (arena 5 3) g1.
Proof.
  intros g1.
  apply (invalid_decision_aborts sample_cost no_direction half 0 0
           (arena 5 3) g1 (0, 0)).
  - reflexivity.
  - vm_compute. reflexivity.
  - vm_compute. reflexivity.
Defined.

(** C7, as stated, fails: in the arena the agent's answer is not a
    direction and the iteration raises [AssertionError], but by then the
    refresh has revealed the cell to the east in the agent's private map and
    entered the monster there into its private object map. *)
Lemma abort_follows_refresh :
  let g := arena 5 3 in
  let g' := (turn sample_cost no_direction half 0 g).2 in
  (turn sample_cost no_direction half 0 g).1 = Raise AssertionError
  /\ private_cell g 0 0 1 = Some U
  /\ private_cell g' 0 0 1 = Some TerrainA
  /\ ~ knows_object g 0 (0, 1)
  /\ knows_object g' 0 (0, 1)
  /\ ~ (agent_maps g' = agent_maps g /\ agent_objects g' = agent_objects g).
Proof.
  split; [vm_compute; reflexivity|].
  split; [vm_compute; reflexivity|].
  split; [vm_compute; reflexivity|].
  split.
  { intros (known & Hknown & Hsome). vm_compute in Hknown.
    injection Hknown as <-. destruct Hsome as [o Ho]. vm_compute in Ho.
    discriminate. }
  split.
  { eexists. split; [vm_compute; reflexivity|].
    exists (StaticMonster 3). vm_compute. reflexivity. }
  intros [Hmaps _]. vm_compute in Hmaps. discriminate.
Qed.

(** ** The fog of war only lifts *)

Lemma np_index_nonneg n i r :
  0 <= i -> np_index n i = Some r -> r = Z.to_nat i.
Proof.
  unfold np_index. intros Hi H.
  destruct (decide (0 <= i < Z.of_nat n)).
  - congruence.
  - destruct (decide (- Z.of_nat n <= i < 0)); [lia | discriminate].
Qed.

Lemma np_get_cell a i j t :
  0 <= i -> 0 <= j -> np_get a i j = Some t ->
  cell a (Z.to_nat i) (Z.to_nat j) = Some t.
Proof.
  unfold np_get, cell. intros Hi Hj H.
  destruct (np_index (length a) i) as [r|] eqn:Er; [|discriminate].
  apply np_index_nonneg in Er; [subst r | exact Hi].
  destruct (a !! Z.to_nat i) as [row|]; [|discriminate].
  destruct (np_index (length row) j) as [c|] eqn:Ec; [|discriminate].
  apply np_index_nonneg in Ec; [subst c | exact Hj].
  exact H.
Qed.

(** A write at a position on the array changes the cell there and no
    other. *)
Lemma np_set_cell a i j known v :
  0 <= i -> 0 <= j -> np_get a i j = Some known ->
  exists a',
    np_set a i j v = Some a'
    /\ forall r c,
         cell a' r c
         = if decide (r = Z.to_nat i /\ c = Z.to_nat j) then Some v
           else cell a r c.
Proof.
  unfold np_get, np_set, cell. intros Hi Hj H.
  destruct (np_index (length a) i) as [r0|] eqn:Er; [|discriminate].
  apply np_index_nonneg in Er; [subst r0 | exact Hi].
  destruct (a !! Z.to_nat i) as [row|] eqn:Erow; [|discriminate].
  destruct (np_index (length row) j) as [c0|] eqn:Ec; [|discriminate].
  apply np_index_nonneg in Ec; [subst c0 | exact Hj].
  eexists. split; [reflexivity|]. intros r c.
  destruct (decide (r = Z.to_nat i)) as [-> | Hr].
  - rewrite list_lookup_insert_eq by (eapply lookup_lt_Some; eassumption).
    destruct (decide (c = Z.to_nat j)) as [-> | Hc].
    + rewrite list_lookup_insert_eq by (eapply lookup_lt_Some; eassumption).
      rewrite decide_True by auto. reflexivity.
    + rewrite list_lookup_insert_ne by auto.
      rewrite decide_False by tauto. rewrite Erow. reflexivity.
  - rewrite list_lookup_insert_ne by auto.
    rewrite decide_False by tauto. reflexivity.
Qed.

Lemma fog_lifts_refl g : fog_lifts g g.
Proof. split; [reflexivity|]. intros a r c t H. exists t. auto. Qed.

Lemma fog_lifts_trans g1 g2 g3 :
  fog_lifts g1 g2 -> fog_lifts g2 g3 -> fog_lifts g1 g3.
Proof.
  intros [Hm12 H12] [Hm23 H23]. split; [congruence|].
  intros a r c t Ht.
  destruct (H12 a r c t Ht) as (t2 & Ht2 & Hrel2).
  destruct (H23 a r c t2 Ht2) as (t3 & Ht3 & Hrel3).
  exists t3. split; [exact Ht3|].
  rewrite Hm12 in Hrel3.
  destruct Hrel3 as [-> | [-> Hauth3]]; [exact Hrel2|].
  destruct Hrel2 as [<- | [-> Hauth2]]; right; auto.
Qed.

(** Writes that touch neither the game map nor the private maps. *)
Lemma fog_lifts_same_maps g g' :
  game_map g' = game_map g -> agent_maps g' = agent_maps g -> fog_lifts g g'.
Proof.
  intros Hm Ha. split; [exact Hm|]. intros a r c t H. exists t.
  split; [|auto]. unfold private_cell in *. rewrite Ha. exact H.
Qed.

Lemma reveal_fog_lifts idx i j : preserves fog_lifts (reveal idx i j).
Proof.
  intros g. unfold reveal.
  rewrite (bind_ok (gets id) _ g g g eq_refl).
  destruct (decide (in_bounds g (i, j))) as [[[Hi _] [Hj _]] |];
    [simpl in Hi, Hj | apply fog_lifts_refl].
  unfold agent_map_get at 1.
  unfold bind at 1 2, gets, orelse; simpl.
  destruct (agent_maps g !! idx) as [a|] eqn:Ha; [|apply fog_lifts_refl].
  simpl. unfold bind at 1.
  destruct (np_get a i j) as [known|] eqn:Hknown; [|apply fog_lifts_refl].
  simpl.
  destruct (decide (known = U)) as [-> |]; [|apply fog_lifts_refl].
  unfold game_map_get, bind at 1 2, gets, orelse; simpl.
  destruct (np_get (game_map g) i j) as [t|] eqn:Ht; [|apply fog_lifts_refl].
  simpl.
  destruct (np_set_cell a i j U t Hi Hj Hknown) as (a' & Hset & Hcells).
  unfold agent_map_set, agent_map_get, bind, gets, orelse, modify; simpl.
  rewrite Ha; simpl. rewrite Hset; simpl.
  split; [reflexivity|].
  intros a0 r c t0. unfold private_cell; simpl.
  destruct (decide (a0 = idx)) as [-> | Hne].
  - rewrite Ha.
    rewrite list_lookup_insert_eq by (eapply lookup_lt_Some; eassumption).
    rewrite Hcells. intros Hold.
    destruct (decide (r = Z.to_nat i /\ c = Z.to_nat j)) as [[-> ->] |].
    + exists t. split; [reflexivity|]. right.
      apply np_get_cell in Hknown; [|assumption..].
      apply np_get_cell in Ht; [|assumption..].
      split; congruence.
    + exists t0. auto.
  - rewrite list_lookup_insert_ne by auto. intros Hold. exists t0. auto.
Qed.

Section FogOfWar.

Variable tile_cost : MapTiles -> option Z.
Variable agent_step :
  nat -> nat -> Location -> Z -> ndarray -> ObjectMap -> decision.
Variable random : nat -> float.

Lemma act_fog_lifts step idx :
  preserves fog_lifts (act tile_cost agent_step random step idx).
Proof.
  apply (act_preserves fog_lifts fog_lifts_refl fog_lifts_trans idx).
  - intros known g. apply fog_lifts_same_maps; reflexivity.
  - apply reveal_fog_lifts.
  - intros l g. apply fog_lifts_same_maps; reflexivity.
  - intros o g. apply fog_lifts_same_maps; reflexivity.
Qed.

Lemma turn_fog_lifts step g :
  fog_lifts g (turn tile_cost agent_step random step g).2.
Proof.
  unfold turn. rewrite (bind_ok (gets agents) _ g _ g eq_refl).
  apply (preserves_bind fog_lifts fog_lifts_trans).
  - apply act_fog_lifts.
  - intros final_loc.
    apply (finish_preserves fog_lifts fog_lifts_refl fog_lifts_trans).
    intros l g0. apply fog_lifts_same_maps; reflexivity.
Qed.

Lemma play_from_fog_lifts fuel step g :
  fog_lifts g (play_from tile_cost agent_step random fuel step g).2.
Proof.
  revert step g. induction fuel as [|fuel IH]; intros step g.
  - apply fog_lifts_refl.
  - cbn [play_from]. pose proof (turn_fog_lifts step g) as Hturn.
    destruct (turn tile_cost agent_step random step g) as [[[ | | ] | e] g'];
      simpl in Hturn; try exact Hturn.
    eapply fog_lifts_trans; [exact Hturn | apply IH].
Qed.

(** C9.  Over any number of iterations of [play], from any iteration on:
    the game map is not written; a private cell that holds a tile other
    than [U] keeps it; and a private cell that holds another tile
    afterwards held [U] before and holds the game map's tile of that cell
    now. *)
Theorem fog_of_war_monotone (fuel step : nat) (g : GameDriver)
    (a r c : nat) (t : MapTiles) :
  private_cell g a r c = Some t ->
  let g' := (play_from tile_cost agent_step random fuel step g).2 in
  game_map g' = game_map g
  /\ is_Some (private_cell g' a r c)
  /\ (t <> U -> private_cell g' a r c = Some t)
  /\ (forall t', private_cell g' a r c = Some t' -> t' <> t ->
                 t = U /\ cell (game_map g) r c = Some t').
Proof.
  intros Ht g'.
  destruct (play_from_fog_lifts fuel step g) as [Hmap Hcells].
  fold g' in Hmap, Hcells.
  destruct (Hcells a r c t Ht) as (t1 & Ht1 & Hrel).
  split; [exact Hmap|]. split; [eauto|]. split.
  - intros HU. destruct Hrel as [-> | [-> _]]; [exact Ht1 | contradiction].
  - intros t' Ht' Hne. assert (t' = t1) by congruence. subst t1.
    destruct Hrel as [-> | Hrel]; [contradiction | exact Hrel].
Qed.

End FogOfWar.

Lemma fog_of_war_monotone_witness :
  let g' := (play_from sample_cost corridor_agents half 3 0 corridor).2 in
  private_cell corridor 0 0 1 = Some U
  /\ private_cell g' 0 0 1 = Some TerrainA
  /\ cell (game_map corridor) 0 1 = Some TerrainA
  /\ forall t', private_cell g' 0 0 1 = Some t' -> t' <> U ->
                U = U /\ cell (game_map corridor) 0 1 = Some t'.
Proof.
  intros g'.
  split; [reflexivity|]. split; [vm_compute; reflexivity|].
  split; [reflexivity|].
  refine (proj2 (proj2 (proj2
            (fog_of_war_monotone sample_cost corridor_agents half 3 0 corridor
               0 0 1 U _)))).
  reflexivity.
Defined.

(** * Properties of the set-up *)

Lemma nonwall_row_spec i j0 row loc :
  loc ∈ nonwall_row i j0 row ->
  exists (k : nat) t,
    row !! k = Some t /\ t <> WALL /\ loc = (i, j0 + Z.of_nat k).
Proof.
  revert j0. induction row as [|t row IH]; intros j0 Hin; simpl in Hin.
  - inversion Hin.
  - apply elem_of_app in Hin as [Hin | Hin].
    + destruct (decide (t = WALL)); [inversion Hin|].
      apply list_elem_of_singleton in Hin. subst loc.
      exists 0%nat, t. split; [reflexivity|]. split; [assumption|].
      f_equal. lia.
    + destruct (IH _ Hin) as (k & t' & Hk & Ht' & ->).
      exists (S k), t'. split; [exact Hk|]. split; [exact Ht'|].
      f_equal. lia.
Qed.

Lemma nonwall_rows_spec i0 a loc :
  loc ∈ nonwall_rows i0 a ->
  exists (r k : nat) row t,
    a !! r = Some row /\ row !! k = Some t /\ t <> WALL
    /\ loc = (i0 + Z.of_nat r, Z.of_nat k).
Proof.
  revert i0. induction a as [|row a IH]; intros i0 Hin; simpl in Hin.
  - inversion Hin.
  - apply elem_of_app in Hin as [Hin | Hin].
    + destruct (nonwall_row_spec _ _ _ _ Hin) as (k & t & Hk & Ht & ->).
      exists 0%nat, k, row, t. repeat split; auto. f_equal; lia.
    + destruct (IH _ Hin) as (r & k & row' & t & Hr & Hk & Ht & ->).
      exists (S r), k, row', t. repeat split; auto. f_equal; lia.
Qed.

Lemma np_index_of_nat n (k : nat) :
  (k < n)%nat -> np_index n (Z.of_nat k) = Some k.
Proof.
  intros Hk. unfold np_index.
  rewrite decide_True by lia. rewrite Nat2Z.id. reflexivity.
Qed.

(** Every entry of [nonwall_indices] is a cell of the array that holds a
    tile other than [WALL]. *)
Lemma nonwall_indices_spec a loc :
  loc ∈ nonwall_indices a ->
  exists t, np_get a loc.1 loc.2 = Some t /\ t <> WALL.
Proof.
  intros Hin. apply nonwall_rows_spec in Hin
    as (r & k & row & t & Hr & Hk & Ht & ->).
  exists t. split; [|exact Ht]. simpl. unfold np_get.
  rewrite Z.add_0_l.
  rewrite np_index_of_nat by (eapply lookup_lt_Some; eassumption).
  rewrite Hr.
  rewrite np_index_of_nat by (eapply lookup_lt_Some; eassumption).
  exact Hk.
Qed.

Lemma Exists_eq_elem_of (loc : Location) placed :
  Exists (fun prev_loc => loc = prev_loc) placed <-> loc ∈ placed.
Proof.
  rewrite Exists_exists. split.
  - intros (x & Hx & ->). exact Hx.
  - intros H. exists loc. auto.
Qed.

(** The location the drawing loop settles on is a cell that is not a wall,
    is not the goal, and is not taken. *)
Lemma draw_location_spec nonwall goal placed draws loc draws' :
  draw_location nonwall goal placed draws = Some (loc, draws') ->
  loc ∈ nonwall /\ loc <> goal /\ loc ∉ placed.
Proof.
  induction draws as [|idx draws IH]; simpl; [discriminate|].
  destruct (nonwall !! idx) as [l|] eqn:Hl; [|discriminate].
  destruct (decide (l = goal \/ Exists (fun prev_loc => l = prev_loc) placed))
    as [|Hfree]; [exact IH|].
  intros H. injection H as -> _.
  split; [eapply list_elem_of_lookup_2; eassumption|].
  split.
  - intros ->. apply Hfree. left. reflexivity.
  - intros Hin. apply Hfree. right. apply Exists_eq_elem_of. exact Hin.
Qed.

(** The drawing loop ends when some draw is a free cell, the draws before
    it being indices too. *)
Lemma draw_location_returns nonwall goal placed draws :
  Forall (fun idx => idx < length nonwall)%nat draws ->
  (exists idx loc, idx ∈ draws /\ nonwall !! idx = Some loc
                   /\ loc <> goal /\ loc ∉ placed) ->
  is_Some (draw_location nonwall goal placed draws).
Proof.
  induction draws as [|idx draws IH]; intros Hrange (i & loc & Hin & Hl & Hg & Hp).
  - inversion Hin.
  - apply Forall_cons in Hrange as [Hidx Hrange]. simpl.
    destruct (lookup_lt_is_Some_2 _ _ Hidx) as [l Hlookup]. rewrite Hlookup.
    destruct (decide (l = goal \/ Exists (fun prev_loc => l = prev_loc) placed))
      as [Htaken|]; [|eauto].
    apply IH; [exact Hrange|].
    apply elem_of_cons in Hin as [-> | Hin].
    + exfalso. assert (l = loc) by congruence. subst l.
      destruct Htaken as [|Hex]; [contradiction|].
      apply Exists_eq_elem_of in Hex. contradiction.
    + exists i, loc. auto.
Qed.

Lemma place_agents_spec n nonwall goal placed draws locs :
  place_agents n nonwall goal placed draws = Some locs ->
  Forall (fun loc => loc ∈ nonwall /\ loc <> goal) placed ->
  NoDup placed ->
  Forall (fun loc => loc ∈ nonwall /\ loc <> goal) locs
  /\ NoDup locs
  /\ length locs = (length placed + n)%nat.
Proof.
  revert placed draws. induction n as [|n IH]; intros placed draws; simpl.
  - intros H Hok Hnd. injection H as <-. repeat split; auto.
  - destruct (draw_location nonwall goal placed draws) as [[loc draws']|] eqn:Hd;
      [|discriminate].
    apply draw_location_spec in Hd as (Hin & Hgoal & Hfree).
    intros H Hok Hnd.
    apply IH in H as (Hok' & Hnd' & Hlen).
    + repeat split; auto. rewrite Hlen, length_app. simpl. lia.
    + apply Forall_app. split; [exact Hok|].
      apply Forall_singleton. auto.
    + apply NoDup_app. split; [exact Hnd|]. split.
      * intros x Hx Hx'. apply list_elem_of_singleton in Hx'. subst x.
        contradiction.
      * apply NoDup_singleton.
Qed.

Section SetupFacts.

Variable powerup_delta : nat -> Z.
Variable monster_strength : nat -> Z.

(** C10.  When [initialize_game] returns, on a driver that has no agent
    placed yet: there is one location per agent; each is a cell of the
    generated map that holds a tile other than [WALL]; none is the goal;
    and no two are the same. *)
Theorem initial_locations (tiles : ndarray) (object_indices draws : list nat)
    (g g' : GameDriver) :
  agent_locations g = [] ->
  initialize_game powerup_delta monster_strength tiles object_indices draws g
  = Some (Ok g') ->
  game_map g' = tiles
  /\ length (agent_locations g') = agents g'
  /\ Forall (fun loc =>
               exists t, np_get (game_map g') loc.1 loc.2 = Some t
                         /\ t <> WALL)
       (agent_locations g')
  /\ Forall (fun loc => loc <> goal_loc g') (agent_locations g')
  /\ NoDup (agent_locations g').
Proof.
  intros Hempty. unfold initialize_game.
  destruct (decide (length (nonwall_indices tiles)
                    < num_monsters g + num_powerups g + 1)%nat);
    [discriminate|].
  destruct (place_objects _ _ _ _ _ _ _) as [objs|]; [|discriminate].
  destruct (nonwall_indices tiles !! 0%nat) as [boss_loc|]; [|discriminate].
  simpl. rewrite Hempty.
  destruct (place_agents _ _ _ _ _) as [locs|] eqn:Hplace; [|discriminate].
  intros H. injection H as <-. simpl.
  apply place_agents_spec in Hplace as (Hok & Hnd & Hlen).
  - split; [reflexivity|]. split; [exact Hlen|].
    split; [|split; [|exact Hnd]].
    + eapply Forall_impl; [exact Hok|]. intros loc [Hin _].
      apply nonwall_indices_spec. exact Hin.
    + eapply Forall_impl; [exact Hok|]. intros loc [_ Hgoal]. exact Hgoal.
  - constructor.
  - constructor.
Qed.

End SetupFacts.

Lemma initial_locations_witness :
  exists g',
    initialize_game (fun _ => 5) (fun _ => 3) sample_tiles
      [2; 1; 3]%nat [0; 1; 1; 3]%nat (fresh 2 3 1 1 2 10) = Some (Ok g')
    /\ agent_locations g' = [(0, 2); (1, 1)]
    /\ goal_loc g' = (0, 1)
    /\ NoDup (agent_locations g').
Proof.
  eexists. split; [vm_compute; reflexivity|].
  split; [reflexivity|]. split; [reflexivity|].
  refine (proj2 (proj2 (proj2 (proj2
            (initial_locations (fun _ => 5) (fun _ => 3) sample_tiles
               [2; 1; 3]%nat [0; 1; 1; 3]%nat (fresh 2 3 1 1 2 10) _ _ _))))).
  - reflexivity.
  - vm_compute. reflexivity.
Defined.

(** * Further properties of the turn engine *)

(** ** Picking a power-up up *)

Lemma agent_objects_get_ok idx g known :
  agent_objects g !! idx = Some known ->
  agent_objects_get idx g = (Ok known, g).
Proof.
  unfold agent_objects_get, bind, gets, orelse. simpl. intros ->. reflexivity.
Qed.

(** One iteration of the retraction loop: the entry at [final_loc] is gone
    from the map of agent [idx], whether it was there or not. *)
Lemma forget_runs idx final_loc g known :
  agent_objects g !! idx = Some known ->
  forget idx final_loc g
  = (Ok tt,
     with_agent_objects (<[idx := delete final_loc known]> (agent_objects g)) g).
Proof.
  intros Hknown. unfold forget.
  rewrite (bind_ok _ _ _ _ _ (agent_objects_get_ok _ _ _ Hknown)).
  destruct (decide (is_Some (known !! final_loc))) as [|Hnone].
  - rewrite (bind_ok _ _ _ _ _ (agent_objects_get_ok _ _ _ Hknown)).
    reflexivity.
  - assert (Hsame : delete final_loc known = known).
    { apply delete_id. destruct (known !! final_loc) eqn:E; [|reflexivity].
      exfalso. apply Hnone. eauto. }
    rewrite Hsame, list_insert_id by exact Hknown.
    rewrite with_agent_objects_same. reflexivity.
Qed.

Lemma forget_loop_runs idx final_loc (i : nat) (l : list nat) g known :
  agent_objects g !! idx = Some known ->
  for_ (i :: l) (fun _ : nat => forget idx final_loc) g
  = (Ok tt,
     with_agent_objects (<[idx := delete final_loc known]> (agent_objects g)) g).
Proof.
  revert i g known. induction l as [|j l IH]; intros i g known Hknown.
  - cbn [for_]. rewrite (bind_ok _ _ _ _ _ (forget_runs _ _ _ _ Hknown)).
    reflexivity.
  - cbn [for_]. rewrite (bind_ok _ _ _ _ _ (forget_runs _ _ _ _ Hknown)).
    change (for_ (j :: l) (fun _ : nat => forget idx final_loc)
              (with_agent_objects
                 (<[idx := delete final_loc known]> (agent_objects g)) g)
            = (Ok tt,
               with_agent_objects
                 (<[idx := delete final_loc known]> (agent_objects g)) g)).
    rewrite (IH j _ (delete final_loc known)).
    + simpl. rewrite list_insert_insert_eq.
      assert (Hidem : delete final_loc (delete final_loc known)
                      = delete final_loc known).
      { apply delete_id. apply lookup_delete_eq. }
      rewrite Hidem. reflexivity.
    + simpl. apply list_lookup_insert_eq. eapply lookup_lt_Some; eassumption.
Qed.

Lemma purge_runs idx final_loc g known :
  (0 < agents g)%nat ->
  agent_objects g !! idx = Some known ->
  purge idx final_loc g
  = (Ok tt,
     with_agent_objects (<[idx := delete final_loc known]> (agent_objects g)) g).
Proof.
  intros Hn Hknown. unfold purge.
  rewrite (bind_ok (gets agents) _ g (agents g) g eq_refl).
  destruct (agents g) as [|n]; [lia|].
  change (seq 0 (S n)) with (0%nat :: seq 1 n).
  apply forget_loop_runs. exact Hknown.
Qed.

Section PickUp.

Variable random : nat -> float.

(** X1.  When the agent stands on a power-up after its move: its strength
    grows by the power-up's [delta], the power-up leaves the object map and
    the agent's own private object map, and nothing else is written -
    neither the knowledge of the other agents nor any location. *)
Theorem powerup_pickup (step idx : nat) (final_loc : Location)
    (g : GameDriver) (s delta : Z) (known : ObjectMap) :
  objects g !! final_loc = Some (PowerUp delta) ->
  agent_strengths g !! idx = Some s ->
  agent_objects g !! idx = Some known ->
  (0 < agents g)%nat ->
  exists g',
    interact random step idx final_loc g = (Ok tt, g')
    /\ agent_strengths g' !! idx = Some (s + delta)
    /\ agent_strengths g' = <[idx := s + delta]> (agent_strengths g)
    /\ objects g' = delete final_loc (objects g)
    /\ objects g' !! final_loc = None
    /\ agent_objects g' !! idx = Some (delete final_loc known)
    /\ agent_objects g' = <[idx := delete final_loc known]> (agent_objects g)
    /\ (forall a, a <> idx -> agent_objects g' !! a = agent_objects g !! a)
    /\ agent_locations g' = agent_locations g
    /\ agent_maps g' = agent_maps g
    /\ game_map g' = game_map g
    /\ goal_loc g' = goal_loc g.
Proof.
  intros Hobj Hs Hknown Hn.
  exists (with_agent_objects
            (<[idx := delete final_loc known]> (agent_objects g))
            (with_objects (delete final_loc (objects g))
               (set_strength idx (s + delta) g))).
  split.
  - unfold interact.
    rewrite (bind_ok (gets objects) _ g _ g eq_refl). rewrite Hobj.
    rewrite (bind_ok _ _ _ _ _ (gain_ok _ _ _ delta Hs)).
    unfold del_object. erewrite (bind_ok (modify _)); [|reflexivity].
    rewrite (purge_runs idx final_loc _ known);
      [reflexivity | exact Hn | exact Hknown].
  - simpl.
    split; [apply list_lookup_insert_eq; eapply lookup_lt_Some; eassumption|].
    split; [reflexivity|]. split; [reflexivity|].
    split; [apply lookup_delete_eq|].
    split; [apply list_lookup_insert_eq; eapply lookup_lt_Some; eassumption|].
    split; [reflexivity|].
    split; [intros a Ha; apply list_lookup_insert_ne; auto|].
    repeat split; reflexivity.
Qed.

End PickUp.

Lemma powerup_pickup_witness :
  exists g',
    interact half 2 0 (0, 1)
      (with_agent_objects
         [{[ (0, 1) := PowerUp 5 ]}; {[ (0, 1) := PowerUp 5 ]}]
         (set_strength 0 9 corridor)) = (Ok tt, g')
    /\ agent_strengths g' = [14; 10]
    /\ objects g' !! (0, 1) = None
    /\ objects g' !! (0, 3) = Some Boss
    /\ agent_objects g' !! 0%nat = Some (delete (0, 1) {[ (0, 1) := PowerUp 5 ]})
    /\ agent_objects g' !! 1%nat = Some {[ (0, 1) := PowerUp 5 ]}
    /\ agent_locations g' = [(0, 0); (0, 2)].
Proof.
  destruct (powerup_pickup half 2 0 (0, 1)
              (with_agent_objects
                 [{[ (0, 1) := PowerUp 5 ]}; {[ (0, 1) := PowerUp 5 ]}]
                 (set_strength 0 9 corridor))
              9 5 {[ (0, 1) := PowerUp 5 ]})
    as (g' & Hrun & _ & Hstr & Hobjs & Hgone & Hknown & _ & Hothers & Hlocs & _).
  - vm_compute. reflexivity.
  - reflexivity.
  - reflexivity.
  - simpl. lia.
  - exists g'. split; [exact Hrun|].
    split; [rewrite Hstr; reflexivity|].
    split; [exact Hgone|].
    split; [rewrite Hobjs; vm_compute; reflexivity|].
    split; [exact Hknown|].
    split; [rewrite (Hothers 1%nat) by lia; reflexivity|].
    rewrite Hlocs. reflexivity.
Defined.

(** ** Where a move can lead *)

Lemma game_map_get_run g i j :
  game_map_get i j g
  = (match np_get (game_map g) i j with
     | Some t => Ok t
     | None => Raise IndexError
     end, g).
Proof.
  unfold game_map_get, bind, gets, orelse. simpl.
  destruct (np_get (game_map g) i j); reflexivity.
Qed.

Section MoveSoundness.

Variable tile_cost : MapTiles -> option Z.

Lemma cost_at_run g loc :
  cost_at tile_cost loc g
  = (match np_get (game_map g) loc.1 loc.2 with
     | Some t => match tile_cost t with
                 | Some c => Ok c
                 | None => Raise KeyError
                 end
     | None => Raise IndexError
     end, g).
Proof.
  unfold cost_at, bind. rewrite game_map_get_run.
  destruct (np_get (game_map g) loc.1 loc.2) as [t|]; [|reflexivity].
  unfold orelse. destruct (tile_cost t); reflexivity.
Qed.

Lemma resolve_move_cases (idx : nat) (current_loc dst_loc final_loc : Location)
    (g g' : GameDriver) (s : Z) :
  agent_strengths g !! idx = Some s ->
  resolve_move tile_cost idx current_loc dst_loc g = (Ok final_loc, g') ->
  (final_loc = current_loc /\ g' = set_strength idx (s - 1) g)
  \/ (final_loc = dst_loc
      /\ in_bounds g dst_loc
      /\ exists t c,
           np_get (game_map g) dst_loc.1 dst_loc.2 = Some t
           /\ t <> WALL
           /\ tile_cost t = Some c
           /\ c <= s
           /\ g' = set_strength idx (s - c) g).
Proof.
  intros Hs. unfold resolve_move.
  assert (Hstay : (let! _ := pay idx (ret 1) in ret current_loc) g
                  = (Ok current_loc, set_strength idx (s - 1) g)).
  { erewrite bind_ok; [reflexivity|]. eapply pay_ok; [eassumption|reflexivity]. }
  rewrite (bind_ok (gets id) _ g g g eq_refl).
  destruct (decide (~ in_bounds g dst_loc)) as [Hout | Hin].
  { rewrite Hstay. intros H. injection H as <- <-. left. auto. }
  apply dec_stable in Hin.
  unfold bind at 1. rewrite game_map_get_run.
  destruct (np_get (game_map g) dst_loc.1 dst_loc.2) as [t|] eqn:Ht;
    [|discriminate].
  destruct (decide (t = WALL)) as [-> | Hwall].
  { rewrite Hstay. intros H. injection H as <- <-. left. auto. }
  rewrite (bind_ok _ _ _ _ _ (strength_get_ok _ _ _ Hs)).
  unfold bind at 1. rewrite cost_at_run, Ht.
  destruct (tile_cost t) as [c|] eqn:Hc; [|discriminate].
  destruct (decide (s < c)) as [Hlt | Hge].
  { rewrite Hstay. intros H. injection H as <- <-. left. auto. }
  erewrite bind_ok; cycle 1.
  { eapply pay_ok; [eassumption|]. rewrite cost_at_run, Ht, Hc. reflexivity. }
  intros H. injection H as <- <-. right.
  split; [reflexivity|]. split; [exact Hin|].
  exists t, c. repeat split; auto. lia.
Qed.

(** X2.  Whenever move resolution returns, the agent is either where it was, one
    strength point poorer, or on the destination, which is then on the map,
    is not a wall, and has a cost that the agent's strength covers and
    that has been deducted.  The agent never ends on a wall or off the
    map. *)
Theorem resolve_move_sound (idx : nat) (current_loc dst_loc final_loc : Location)
    (g g' : GameDriver) (s : Z) :
  agent_strengths g !! idx = Some s ->
  resolve_move tile_cost idx current_loc dst_loc g = (Ok final_loc, g') ->
  (final_loc = current_loc /\ g' = set_strength idx (s - 1) g)
  \/ (final_loc = dst_loc
      /\ in_bounds g dst_loc
      /\ exists t c,
           np_get (game_map g) dst_loc.1 dst_loc.2 = Some t
           /\ t <> WALL
           /\ tile_cost t = Some c
           /\ c <= s
           /\ g' = set_strength idx (s - c) g).
Proof.
  intros Hs Hmove.
  destruct (resolve_move_cases _ _ _ _ _ _ _ Hs Hmove) as [Hstay | Hmoved].
  - left. exact Hstay.
  - right. exact Hmoved.
Qed.

(** X3.  Move resolution on its own never takes an agent of strength at least 1
    below 0. *)
Theorem resolve_move_keeps_alive (idx : nat)
    (current_loc dst_loc final_loc : Location) (g g' : GameDriver) (s : Z) :
  agent_strengths g !! idx = Some s ->
  1 <= s ->
  resolve_move tile_cost idx current_loc dst_loc g = (Ok final_loc, g') ->
  exists s', agent_strengths g' !! idx = Some s' /\ 0 <= s'.
Proof.
  intros Hs Hpos Hmove.
  destruct (resolve_move_cases _ _ _ _ _ _ _ Hs Hmove)
    as [[_ ->] | (_ & _ & t & c & _ & _ & _ & Hc & ->)].
  - exists (s - 1). split; [eapply set_strength_lookup; eassumption | lia].
  - exists (s - c). split; [eapply set_strength_lookup; eassumption | lia].
Qed.

End MoveSoundness.

Lemma resolve_move_sound_witness :
  resolve_move sample_cost 0 (0, 0) (0, 1) (arena 5 3)
  = (Ok (0, 1), set_strength 0 4 (arena 5 3))
  /\ ((0, 1) = (0, 0) /\ set_strength 0 4 (arena 5 3)
                        = set_strength 0 (5 - 1) (arena 5 3)
      \/ ((0, 1) = (0, 1)
          /\ in_bounds (arena 5 3) (0, 1)
          /\ exists t c,
               np_get (game_map (arena 5 3)) 0 1 = Some t
               /\ t <> WALL
               /\ sample_cost t = Some c
               /\ c <= 5
               /\ set_strength 0 4 (arena 5 3)
                  = set_strength 0 (5 - c) (arena 5 3))).
Proof.
  assert (Hrun : resolve_move sample_cost 0 (0, 0) (0, 1) (arena 5 3)
                 = (Ok (0, 1), set_strength 0 4 (arena 5 3))).
  { vm_compute. reflexivity. }
  split; [exact Hrun|].
  apply (resolve_move_sound sample_cost 0 (0, 0) (0, 1) (0, 1)
           (arena 5 3) (set_strength 0 4 (arena 5 3)) 5).
  - reflexivity.
  - exact Hrun.
Defined.

Lemma resolve_move_keeps_alive_witness :
  exists s',
    agent_strengths (set_strength 0 0 (arena 1 3)) !! 0%nat = Some s'
    /\ 0 <= s'.
Proof.
  apply (resolve_move_keeps_alive sample_cost 0 (0, 0) (0, 1) (0, 1)
           (arena 1 3) (set_strength 0 0 (arena 1 3)) 1).
  - reflexivity.
  - lia.
  - vm_compute. reflexivity.
Defined.

(** ** What the visibility refresh does *)

(** A loop that returns has run its body on every member of the list, from
    a state the earlier iterations led to and to one the later ones start
    from. *)
Lemma for_member {A} (R : GameDriver -> GameDriver -> Prop)
    (l : list A) (body : A -> M unit) (x : A) g g1 :
  (forall g0, R g0 g0) ->
  (forall g0 g2 g3, R g0 g2 -> R g2 g3 -> R g0 g3) ->
  (forall y, preserves R (body y)) ->
  for_ l body g = (Ok tt, g1) ->
  x ∈ l ->
  exists ga gb, R g ga /\ body x ga = (Ok tt, gb) /\ R gb g1.
Proof.
  intros Hrefl Htrans Hbody. revert g.
  induction l as [|y l IH]; intros g Hrun Hin; [inversion Hin|].
  cbn [for_] in Hrun. unfold bind in Hrun.
  pose proof (Hbody y g) as Hy.
  destruct (body y g) as [[[] | e] g2] eqn:Ey; [|discriminate].
  simpl in Hy.
  apply elem_of_cons in Hin as [-> | Hin].
  - exists g, g2. split; [apply Hrefl|]. split; [exact Ey|].
    pose proof (preserves_for R Hrefl Htrans l body Hbody g2) as Hrest.
    rewrite Hrun in Hrest. exact Hrest.
  - destruct (IH g2 Hrun Hin) as (ga & gb & Ha & Hb & Hc).
    exists ga, gb. split; [eapply Htrans; eassumption|]. auto.
Qed.

Lemma refreshes_refl idx g : refreshes idx g g.
Proof. split; [apply same_but_knowledge_of_refl | apply fog_lifts_refl]. Qed.

Lemma refreshes_trans idx g1 g2 g3 :
  refreshes idx g1 g2 -> refreshes idx g2 g3 -> refreshes idx g1 g3.
Proof.
  intros [A1 A2] [B1 B2]. split.
  - eapply same_but_knowledge_of_trans; eassumption.
  - eapply fog_lifts_trans; eassumption.
Qed.

Lemma observe_refreshes idx current_loc off :
  preserves (refreshes idx) (observe idx current_loc off).
Proof.
  unfold observe.
  apply (preserves_bind (refreshes idx) (refreshes_trans idx)).
  - intros g. split.
    + apply (reveal_preserves (same_but_knowledge_of idx)
               (same_but_knowledge_of_refl idx)
               (same_but_knowledge_of_trans idx)).
      intros a g0. unfold same_but_knowledge_of. simpl.
      repeat split; auto.
      intros a' Ha. apply list_lookup_insert_ne. auto.
    + apply reveal_fog_lifts.
  - intros _.
    apply (notice_preserves (refreshes idx) (refreshes_refl idx)
             (refreshes_trans idx)).
    intros known g. split.
    + unfold same_but_knowledge_of. simpl. repeat split; auto.
      intros a Ha. apply list_lookup_insert_ne. auto.
    + apply fog_lifts_same_maps; reflexivity.
Qed.

(** What [reveal] does to a cell on the map that the agent holds as [U]. *)
Lemma reveal_runs idx i j g g' :
  in_bounds g (i, j) ->
  reveal idx i j g = (Ok tt, g') ->
  private_cell g idx (Z.to_nat i) (Z.to_nat j) = Some U ->
  exists t,
    cell (game_map g) (Z.to_nat i) (Z.to_nat j) = Some t
    /\ private_cell g' idx (Z.to_nat i) (Z.to_nat j) = Some t.
Proof.
  intros Hin. pose proof Hin as [[Hi _] [Hj _]]. simpl in Hi, Hj.
  unfold reveal. rewrite (bind_ok (gets id) _ g g g eq_refl).
  rewrite decide_True by exact Hin.
  unfold private_cell.
  unfold agent_map_get at 1. unfold bind at 1 2, gets, orelse; simpl.
  destruct (agent_maps g !! idx) as [a|] eqn:Ha; [|discriminate].
  simpl. unfold bind at 1.
  destruct (np_get a i j) as [known|] eqn:Hknown; [|discriminate].
  simpl. intros Hrun Hcell.
  pose proof (np_get_cell _ _ _ _ Hi Hj Hknown) as Hknown'.
  assert (known = U) by congruence. subst known.
  rewrite decide_True in Hrun by reflexivity.
  unfold bind at 1 in Hrun. rewrite game_map_get_run in Hrun.
  destruct (np_get (game_map g) i j) as [t|] eqn:Ht; [|discriminate].
  destruct (np_set_cell a i j U t Hi Hj Hknown) as (a' & Hset & Hcells).
  unfold agent_map_set, agent_map_get, bind, gets, orelse, modify in Hrun;
    simpl in Hrun.
  rewrite Ha in Hrun; simpl in Hrun. rewrite Hset in Hrun; simpl in Hrun.
  injection Hrun as <-. simpl.
  exists t. split; [apply np_get_cell; assumption|].
  rewrite list_lookup_insert_eq by (eapply lookup_lt_Some; eassumption).
  rewrite Hcells. rewrite decide_True by auto. reflexivity.
Qed.

(** X4.  After a refresh that returns, a cell next to the agent and on the map
    holds in the agent's private map what it held before, if that was a
    tile other than [U], and the game map's tile of that cell otherwise:
    the refresh leaves nothing around the agent hidden. *)
Theorem refresh_reveals (idx : nat) (current_loc : Location) (off : Z * Z)
    (g g1 : GameDriver) (old : MapTiles) :
  let i := current_loc.1 + off.1 in
  let j := current_loc.2 + off.2 in
  update_map idx current_loc g = (Ok tt, g1) ->
  off ∈ neighbours ->
  in_bounds g (i, j) ->
  private_cell g idx (Z.to_nat i) (Z.to_nat j) = Some old ->
  exists new,
    private_cell g1 idx (Z.to_nat i) (Z.to_nat j) = Some new
    /\ (old <> U -> new = old)
    /\ (old = U -> cell (game_map g) (Z.to_nat i) (Z.to_nat j) = Some new).
Proof.
  intros i j Hrun Hoff Hin Hold. unfold update_map in Hrun.
  destruct (for_member (refreshes idx) neighbours (observe idx current_loc)
              off g g1 (refreshes_refl idx) (refreshes_trans idx)
              (observe_refreshes idx current_loc) Hrun Hoff)
    as (ga & gb & [Hsame_a [Hmap_a Hfog_a]] & Hbody & [_ [Hmap_b Hfog_b]]).
  destruct Hsame_a as (Hw & Hh & _).
  unfold observe in Hbody. fold i j in Hbody. unfold bind in Hbody.
  pose proof (observe_refreshes idx current_loc off ga) as Hobs.
  pose proof (reveal_fog_lifts idx i j ga) as [Hmap_m Hfog_m].
  destruct (reveal idx i j ga) as [[[] | e] gm] eqn:Hreveal; [|discriminate].
  simpl in Hmap_m, Hfog_m.
  assert (Hnotice : fog_lifts gm gb).
  { pose proof (notice_preserves fog_lifts fog_lifts_refl fog_lifts_trans idx
                  (fun known g0 => fog_lifts_same_maps _ _ eq_refl eq_refl)
                  i j gm) as H.
    rewrite Hbody in H. exact H. }
  destruct Hnotice as [Hmap_n Hfog_n].
  assert (Hin_a : in_bounds ga (i, j)).
  { unfold in_bounds in *. rewrite Hw, Hh. exact Hin. }
  destruct (Hfog_a _ _ _ _ Hold) as (t1 & Ht1 & Hrel1).
  assert (Hmid : exists t2,
             private_cell gm idx (Z.to_nat i) (Z.to_nat j) = Some t2
             /\ (old <> U -> t2 = old)
             /\ (old = U ->
                 cell (game_map g) (Z.to_nat i) (Z.to_nat j) = Some t2)).
  { destruct (decide (t1 = U)) as [-> | Hknown].
    - destruct (reveal_runs idx i j ga gm Hin_a Hreveal Ht1) as (t & Hauth & Hnew).
      exists t. split; [exact Hnew|]. rewrite Hmap_a in Hauth.
      destruct Hrel1 as [<- | [-> Hauth1]].
      + split; [congruence | auto].
      + split; [congruence | auto].
    - destruct (Hfog_m _ _ _ _ Ht1) as (t2 & Ht2 & [-> | [-> _]]);
        [|contradiction].
      exists t1. split; [exact Ht2|].
      destruct Hrel1 as [-> | [-> Hauth1]]; split; auto; congruence. }
  destruct Hmid as (t2 & Ht2 & Hkeep & Hlift).
  destruct (Hfog_n _ _ _ _ Ht2) as (t3 & Ht3 & Hrel3).
  destruct (Hfog_b _ _ _ _ Ht3) as (t4 & Ht4 & Hrel4).
  rewrite Hmap_m, Hmap_a in Hrel3.
  rewrite Hmap_n, Hmap_m, Hmap_a in Hrel4.
  exists t4. split; [exact Ht4|]. split.
  - intros HU. specialize (Hkeep HU). subst t2.
    destruct Hrel3 as [-> | [-> _]]; [|contradiction].
    destruct Hrel4 as [-> | [-> _]]; [reflexivity|contradiction].
  - intros HU. specialize (Hlift HU).
    destruct Hrel3 as [-> | [-> Hauth3]].
    + destruct Hrel4 as [-> | [_ Hauth4]]; assumption.
    + destruct Hrel4 as [-> | [_ Hauth4]]; assumption.
Qed.

Lemma refresh_reveals_witness :
  let g1 := (update_map 0 (0, 0) corridor).2 in
  exists new,
    private_cell g1 0 (Z.to_nat (0 + 0)) (Z.to_nat (0 + 1)) = Some new
    /\ (U <> U -> new = U)
    /\ (U = U ->
        cell (game_map corridor) (Z.to_nat (0 + 0)) (Z.to_nat (0 + 1))
        = Some new).
Proof.
  intros g1.
  apply (refresh_reveals 0 (0, 0) (0, 1) corridor g1 U).
  - vm_compute. reflexivity.
  - unfold neighbours. do 4 apply list_elem_of_further. apply list_elem_of_here.
  - vm_compute. repeat split; discriminate.
  - reflexivity.
Defined.

Lemma lifts_within_refl idx current_loc offs g :
  lifts_within idx current_loc offs g g.
Proof. intros a r c _. reflexivity. Qed.

Lemma lifts_within_same_maps idx current_loc offs g g' :
  agent_maps g' = agent_maps g -> lifts_within idx current_loc offs g g'.
Proof. intros H a r c _. unfold private_cell. rewrite H. reflexivity. Qed.

(** [reveal] writes at most the one cell it is called on. *)
Lemma reveal_within idx current_loc off g :
  lifts_within idx current_loc [off] g
    (reveal idx (current_loc.1 + off.1) (current_loc.2 + off.2) g).2.
Proof.
  set (i := current_loc.1 + off.1). set (j := current_loc.2 + off.2).
  unfold reveal. rewrite (bind_ok (gets id) _ g g g eq_refl).
  destruct (decide (in_bounds g (i, j))) as [[[Hi _] [Hj _]] |];
    [simpl in Hi, Hj | apply lifts_within_refl].
  unfold agent_map_get at 1.
  unfold bind at 1 2, gets, orelse; simpl.
  destruct (agent_maps g !! idx) as [a|] eqn:Ha; [|apply lifts_within_refl].
  simpl. unfold bind at 1.
  destruct (np_get a i j) as [known|] eqn:Hknown; [|apply lifts_within_refl].
  simpl.
  destruct (decide (known = U)) as [-> |]; [|apply lifts_within_refl].
  unfold bind at 1. rewrite game_map_get_run.
  destruct (np_get (game_map g) i j) as [t|] eqn:Ht; [|apply lifts_within_refl].
  destruct (np_set_cell a i j U t Hi Hj Hknown) as (a' & Hset & Hcells).
  unfold agent_map_set, agent_map_get, bind, gets, orelse, modify; simpl.
  rewrite Ha; simpl. rewrite Hset; simpl.
  intros a0 r c Hout. unfold private_cell; simpl.
  destruct (decide (a0 = idx)) as [-> | Hne].
  - rewrite Ha.
    rewrite list_lookup_insert_eq by (eapply lookup_lt_Some; eassumption).
    rewrite Hcells.
    destruct (decide (r = Z.to_nat i /\ c = Z.to_nat j)) as [[-> ->] |];
      [|reflexivity].
    exfalso. apply (Hout eq_refl off); [apply list_elem_of_here|].
    fold i j. f_equal; lia.
  - rewrite list_lookup_insert_ne by auto. reflexivity.
Qed.

Lemma observe_within idx current_loc off g :
  lifts_within idx current_loc [off] g (observe idx current_loc off g).2.
Proof.
  unfold observe, bind.
  pose proof (reveal_within idx current_loc off g) as Hreveal.
  destruct (reveal idx (current_loc.1 + off.1) (current_loc.2 + off.2) g)
    as [[[] | e] gm]; simpl in Hreveal; [|exact Hreveal].
  assert (Hmaps : agent_maps
                    (notice idx (current_loc.1 + off.1)
                       (current_loc.2 + off.2) gm).2
                  = agent_maps gm).
  { unfold notice, bind, gets; simpl.
    destruct (objects gm !! _); [|reflexivity].
    unfold agent_objects_get, agent_objects_put, bind, gets, orelse, modify;
      simpl.
    destruct (agent_objects gm !! idx); reflexivity. }
  intros a r c Hout. unfold private_cell. rewrite Hmaps.
  apply Hreveal. exact Hout.
Qed.

Lemma update_within idx current_loc (offs : list (Z * Z)) g :
  lifts_within idx current_loc offs g
    (for_ offs (observe idx current_loc) g).2.
Proof.
  revert g. induction offs as [|off offs IH]; intros g.
  - apply lifts_within_refl.
  - cbn [for_]. unfold bind.
    pose proof (observe_within idx current_loc off g) as Hfirst.
    destruct (observe idx current_loc off g) as [[[] | e] gm];
      simpl in Hfirst.
    + intros a r c Hout.
      rewrite (IH gm a r c).
      * apply Hfirst. intros Ha o Ho. apply (Hout Ha).
        apply list_elem_of_singleton in Ho as ->. apply list_elem_of_here.
      * intros Ha o Ho. apply (Hout Ha). apply list_elem_of_further. exact Ho.
    + intros a r c Hout. apply Hfirst.
      intros Ha o Ho. apply (Hout Ha).
      apply list_elem_of_singleton in Ho as ->. apply list_elem_of_here.
Qed.

(** X5.  The refresh of agent [idx], whether it returns or raises, writes no
    private map but that agent's, and there no cell but the eight around
    its location: the cell the agent stands on is not among them. *)
Theorem refresh_is_local (idx : nat) (current_loc : Location)
    (g : GameDriver) :
  let g1 := (update_map idx current_loc g).2 in
  (forall a r c,
     a <> idx \/ ~ is_neighbour current_loc r c ->
     private_cell g1 a r c = private_cell g a r c)
  /\ (0 <= current_loc.1 -> 0 <= current_loc.2 ->
      private_cell g1 idx (Z.to_nat current_loc.1) (Z.to_nat current_loc.2)
      = private_cell g idx (Z.to_nat current_loc.1) (Z.to_nat current_loc.2)).
Proof.
  intros g1.
  pose proof (update_within idx current_loc neighbours g) as Hwithin.
  fold (update_map idx current_loc) in Hwithin. fold g1 in Hwithin.
  split.
  - intros a r c Hout. apply Hwithin. intros -> off Hoff Heq.
    destruct Hout as [Ha | Hn]; [congruence|].
    apply Hn. exists off. auto.
  - intros H1 H2. apply Hwithin. intros _ off Hoff Heq.
    rewrite !Z2Nat.id in Heq by assumption.
    injection Heq as E1 E2.
    assert (off = (0, 0)) as ->.
    { destruct off as [o1 o2]. simpl in E1, E2. f_equal; lia. }
    unfold neighbours in Hoff.
    repeat (apply elem_of_cons in Hoff as [Hoff | Hoff]; [discriminate|]).
    inversion Hoff.
Qed.

Lemma refresh_is_local_witness :
  private_cell (update_map 0 (0, 0) corridor).2 0
    (Z.to_nat (0, 0).1) (Z.to_nat (0, 0).2)
  = private_cell corridor 0 (Z.to_nat (0, 0).1) (Z.to_nat (0, 0).2).
Proof.
  apply (proj2 (refresh_is_local 0 (0, 0) corridor)); simpl; lia.
Defined.

Lemma snapshot_kept_refl idx g : snapshot_kept idx g g.
Proof. split; [reflexivity|]. intros loc o known _ Hk Hl. eauto. Qed.

Lemma snapshot_kept_trans idx g1 g2 g3 :
  snapshot_kept idx g1 g2 -> snapshot_kept idx g2 g3 -> snapshot_kept idx g1 g3.
Proof.
  intros [Ho12 H12] [Ho23 H23]. split; [congruence|].
  intros loc o known Hobj Hk Hl.
  destruct (H12 loc o known Hobj Hk Hl) as (known2 & Hk2 & Hl2).
  apply (H23 loc o known2); [rewrite Ho12; exact Hobj | exact Hk2 | exact Hl2].
Qed.

Lemma snapshot_kept_same idx g g' :
  objects g' = objects g -> agent_objects g' = agent_objects g ->
  snapshot_kept idx g g'.
Proof.
  intros Ho Ha. split; [exact Ho|]. intros loc o known _ Hk Hl.
  exists known. rewrite Ha. auto.
Qed.

(** [notice] enters what the object map holds, so whatever the agent
    rightly knew it still knows. *)
Lemma notice_snapshot_kept idx i j :
  preserves (snapshot_kept idx) (notice idx i j).
Proof.
  intros g. unfold notice, bind, gets; simpl.
  destruct (objects g !! (i, j)) as [o|] eqn:Hobj;
    [|apply snapshot_kept_refl].
  unfold agent_objects_get, agent_objects_put, bind, gets, orelse, modify;
    simpl.
  destruct (agent_objects g !! idx) as [known|] eqn:Hknown;
    [|apply snapshot_kept_refl].
  simpl. split; [reflexivity|].
  intros loc o' known0 Hobj' Hk Hl. simpl.
  assert (known0 = known) by congruence. subst known0.
  exists (<[(i, j) := o]> known). split.
  - apply list_lookup_insert_eq. eapply lookup_lt_Some; eassumption.
  - destruct (decide (loc = (i, j))) as [-> | Hne].
    + rewrite lookup_insert_eq. congruence.
    + rewrite lookup_insert_ne by auto. exact Hl.
Qed.

Lemma observe_snapshot_kept idx current_loc off :
  preserves (snapshot_kept idx) (observe idx current_loc off).
Proof.
  unfold observe.
  apply (preserves_bind (snapshot_kept idx) (snapshot_kept_trans idx)).
  - apply (reveal_preserves (snapshot_kept idx) (snapshot_kept_refl idx)
             (snapshot_kept_trans idx)).
    intros a g. apply snapshot_kept_same; reflexivity.
  - intros _. apply notice_snapshot_kept.
Qed.

(** X6.  After a refresh that returns, the agent's private object map holds,
    for every cell around the agent that carries an object, that very
    object. *)
Theorem refresh_snapshots_objects (idx : nat) (current_loc : Location)
    (off : Z * Z) (g g1 : GameDriver) (o : GameObject) :
  let loc := (current_loc.1 + off.1, current_loc.2 + off.2) in
  update_map idx current_loc g = (Ok tt, g1) ->
  off ∈ neighbours ->
  objects g !! loc = Some o ->
  objects g1 = objects g
  /\ exists known,
       agent_objects g1 !! idx = Some known /\ known !! loc = Some o.
Proof.
  intros loc Hrun Hoff Hobj. unfold update_map in Hrun.
  destruct (for_member (snapshot_kept idx) neighbours
              (observe idx current_loc) off g g1
              (snapshot_kept_refl idx) (snapshot_kept_trans idx)
              (observe_snapshot_kept idx current_loc) Hrun Hoff)
    as (ga & gb & [Hobj_a _] & Hbody & [Hobj_b Hkept_b]).
  unfold observe in Hbody. unfold bind at 1 in Hbody.
  pose proof (reveal_preserves (snapshot_kept idx) (snapshot_kept_refl idx)
                (snapshot_kept_trans idx) idx
                (current_loc.1 + off.1) (current_loc.2 + off.2)
                (fun a g0 => snapshot_kept_same idx _ _ eq_refl eq_refl) ga)
    as [Hobj_m _].
  destruct (reveal idx (current_loc.1 + off.1) (current_loc.2 + off.2) ga)
    as [[[] | e] gm]; [|discriminate].
  simpl in Hobj_m.
  assert (Hobj_gm : objects gm !! loc = Some o) by (rewrite Hobj_m, Hobj_a; exact Hobj).
  unfold notice in Hbody. fold loc in Hbody.
  rewrite (bind_ok (gets objects) _ gm _ gm eq_refl) in Hbody.
  rewrite Hobj_gm in Hbody.
  unfold agent_objects_get, agent_objects_put, bind, gets, orelse, modify
    in Hbody; simpl in Hbody.
  destruct (agent_objects gm !! idx) as [known|] eqn:Hknown; [|discriminate].
  simpl in Hbody. injection Hbody as <-.
  simpl in Hobj_b, Hkept_b.
  split; [congruence|].
  apply (Hkept_b loc o (<[loc := o]> known)).
  - exact Hobj_gm.
  - apply list_lookup_insert_eq. eapply lookup_lt_Some; eassumption.
  - apply lookup_insert_eq.
Qed.

Lemma refresh_snapshots_objects_witness :
  let g1 := (update_map 0 (0, 0) corridor).2 in
  objects g1 = objects corridor
  /\ exists known,
       agent_objects g1 !! 0%nat = Some known
       /\ known !! (0 + 0, 0 + 1) = Some (PowerUp 5).
Proof.
  intros g1.
  apply (refresh_snapshots_objects 0 (0, 0) (0, 1) corridor g1 (PowerUp 5)).
  - vm_compute. reflexivity.
  - unfold neighbours. do 4 apply list_elem_of_further. apply list_elem_of_here.
  - vm_compute. reflexivity.
Defined.

(** ** What a turn writes *)

Lemma static_kept_refl g : static_kept g g.
Proof. unfold static_kept. repeat split; reflexivity. Qed.

Lemma static_kept_trans g1 g2 g3 :
  static_kept g1 g2 -> static_kept g2 g3 -> static_kept g1 g3.
Proof.
  unfold static_kept.
  intros (A1 & A2 & A3 & A4 & A5 & A6 & A7 & A8 & A9 & A10 & A11 & A12 & A13)
         (B1 & B2 & B3 & B4 & B5 & B6 & B7 & B8 & B9 & B10 & B11 & B12 & B13).
  repeat split; try congruence.
  transitivity (objects g2); assumption.
Qed.

Lemma turn_footprint_refl idx g : turn_footprint idx g g.
Proof. split; [apply static_kept_refl|]. intros a _. repeat split. Qed.

Lemma turn_footprint_trans idx g1 g2 g3 :
  turn_footprint idx g1 g2 -> turn_footprint idx g2 g3 ->
  turn_footprint idx g1 g3.
Proof.
  intros [A1 A2] [B1 B2]. split; [eapply static_kept_trans; eassumption|].
  intros a Ha. destruct (A2 a Ha) as (C1 & C2 & C3 & C4).
  destruct (B2 a Ha) as (D1 & D2 & D3 & D4).
  repeat split; congruence.
Qed.

Section Footprint.

Variable tile_cost : MapTiles -> option Z.
Variable agent_step :
  nat -> nat -> Location -> Z -> ndarray -> ObjectMap -> decision.
Variable random : nat -> float.

Lemma turn_footprint_holds step g :
  turn_footprint (step mod agents g)
    g (turn tile_cost agent_step random step g).2.
Proof.
  set (idx := (step mod agents g)%nat).
  assert (Hobjs : forall known g0,
             turn_footprint idx g0
               (with_agent_objects (<[idx := known]> (agent_objects g0)) g0)).
  { intros known g0. split.
    - unfold static_kept. simpl. rewrite length_insert. repeat split; reflexivity.
    - intros a Ha. simpl. repeat split; try reflexivity.
      apply list_lookup_insert_ne. auto. }
  assert (Hmaps : forall a g0,
             turn_footprint idx g0
               (with_agent_maps (<[idx := a]> (agent_maps g0)) g0)).
  { intros a g0. split.
    - unfold static_kept. simpl. rewrite length_insert. repeat split; reflexivity.
    - intros a' Ha. simpl. repeat split; try reflexivity.
      apply list_lookup_insert_ne. auto. }
  assert (Hstr : forall s g0, turn_footprint idx g0 (set_strength idx s g0)).
  { intros s g0. split.
    - unfold static_kept. simpl. rewrite length_insert. repeat split; reflexivity.
    - intros a Ha. simpl. repeat split; try reflexivity.
      apply list_lookup_insert_ne. auto. }
  assert (Hdel : forall loc g0,
             turn_footprint idx g0
               (with_objects (delete loc (objects g0)) g0)).
  { intros loc g0. split.
    - unfold static_kept. simpl. repeat split; try reflexivity.
      apply delete_subseteq.
    - intros a Ha. simpl. repeat split; reflexivity. }
  assert (Hloc : forall loc g0,
             turn_footprint idx g0
               (with_agent_locations (<[idx := loc]> (agent_locations g0)) g0)).
  { intros loc g0. split.
    - unfold static_kept. simpl. rewrite length_insert. repeat split; reflexivity.
    - intros a Ha. simpl. repeat split; try reflexivity.
      apply list_lookup_insert_ne. auto. }
  unfold turn. rewrite (bind_ok (gets agents) _ g _ g eq_refl). fold idx.
  apply (preserves_bind (turn_footprint idx) (turn_footprint_trans idx)).
  - apply (act_preserves (turn_footprint idx) (turn_footprint_refl idx)
             (turn_footprint_trans idx) idx tile_cost agent_step random
             Hobjs).
    + intros i j.
      apply (reveal_preserves (turn_footprint idx) (turn_footprint_refl idx)
               (turn_footprint_trans idx) idx i j Hmaps).
    + exact Hstr.
    + exact Hdel.
  - intros final_loc.
    apply (finish_preserves (turn_footprint idx) (turn_footprint_refl idx)
             (turn_footprint_trans idx) idx Hloc).
Qed.

(** X7.  One iteration of [play], whether it returns or raises, writes the
    location, the strength and the private knowledge of the acting agent
    only; it leaves the dimensions, the game map, the goal, the initial
    strength and the number of agents as they are; and it adds no object
    to the object map and changes none: it can only remove some. *)
Theorem turn_writes_the_actor_only (step : nat) (g : GameDriver) :
  let idx := (step mod agents g)%nat in
  let g' := (turn tile_cost agent_step random step g).2 in
  static_kept g g'
  /\ (forall loc o, objects g' !! loc = Some o -> objects g !! loc = Some o)
  /\ forall a, a <> idx ->
       agent_locations g' !! a = agent_locations g !! a
       /\ agent_strengths g' !! a = agent_strengths g !! a
       /\ agent_maps g' !! a = agent_maps g !! a
       /\ agent_objects g' !! a = agent_objects g !! a.
Proof.
  intros idx g'.
  destruct (turn_footprint_holds step g) as [Hstatic Hothers].
  fold idx g' in Hstatic, Hothers.
  split; [exact Hstatic|]. split.
  - intros loc o Ho.
    destruct Hstatic as (_ & _ & _ & _ & _ & _ & _ & _ & Hsub & _).
    eapply lookup_weaken; eassumption.
  - intros a Ha. destruct (Hothers a Ha) as (H1 & H2 & H3 & H4). auto.
Qed.

Lemma play_from_static fuel step g :
  static_kept g (play_from tile_cost agent_step random fuel step g).2.
Proof.
  revert step g. induction fuel as [|fuel IH]; intros step g.
  - apply static_kept_refl.
  - cbn [play_from]. pose proof (turn_footprint_holds step g) as [Hturn _].
    destruct (turn tile_cost agent_step random step g) as [[[ | | ] | e] g'];
      simpl in Hturn; try exact Hturn.
    eapply static_kept_trans; [exact Hturn | apply IH].
Qed.

(** X8.  Over a whole run of [play], however it ends: the dimensions, the game
    map, the goal and the number of agents are never written, the per-agent
    lists keep their lengths, and every object on the map at the end was
    there, the same, at the start. *)
Theorem play_keeps_the_board (fuel : nat) (g : GameDriver) :
  let g' := (play tile_cost agent_step random fuel g).2 in
  width g' = width g /\ height g' = height g
  /\ game_map g' = game_map g /\ goal_loc g' = goal_loc g
  /\ agents g' = agents g
  /\ length (agent_locations g') = length (agent_locations g)
  /\ length (agent_strengths g') = length (agent_strengths g)
  /\ length (agent_maps g') = length (agent_maps g)
  /\ length (agent_objects g') = length (agent_objects g)
  /\ forall loc o, objects g' !! loc = Some o -> objects g !! loc = Some o.
Proof.
  intros g'.
  assert (Hstatic : static_kept g g').
  { unfold g', play. destruct (decide (agents g = 0%nat));
      [apply static_kept_refl | apply play_from_static]. }
  destruct Hstatic
    as (A1 & A2 & A3 & A4 & A5 & A6 & A7 & A8 & A9 & A10 & A11 & A12 & A13).
  repeat split; try assumption.
  intros loc o Ho. eapply lookup_weaken; eassumption.
Qed.

End Footprint.

(** ** A well-formed driver raises no [IndexError] *)

Lemma np_index_in_range n i :
  0 <= i < Z.of_nat n -> np_index n i = Some (Z.to_nat i).
Proof. intros H. unfold np_index. rewrite decide_True by exact H. reflexivity. Qed.

Lemma has_shape_get h w a i j :
  has_shape h w a -> 0 <= i < h -> 0 <= j < w -> is_Some (np_get a i j).
Proof.
  intros [Hlen Hrows] Hi Hj. unfold np_get.
  rewrite np_index_in_range by lia.
  destruct (lookup_lt_is_Some_2 a (Z.to_nat i)) as [row Hrow]; [lia|].
  rewrite Hrow.
  pose proof (Forall_lookup_1 _ _ _ _ Hrows Hrow) as Hw. simpl in Hw.
  rewrite np_index_in_range by lia.
  apply lookup_lt_is_Some_2. lia.
Qed.

Lemma np_set_shape h w a i j v a' :
  np_set a i j v = Some a' -> has_shape h w a -> has_shape h w a'.
Proof.
  unfold np_set. intros Hset [Hlen Hrows].
  destruct (np_index (length a) i) as [r|]; [|discriminate].
  destruct (a !! r) as [row|] eqn:Hrow; [|discriminate].
  destruct (np_index (length row) j) as [c|]; [|discriminate].
  injection Hset as <-. split.
  - rewrite length_insert. exact Hlen.
  - apply Forall_insert; [exact Hrows|].
    rewrite length_insert.
    exact (Forall_lookup_1 _ _ _ _ Hrows Hrow).
Qed.

Lemma stays_well_formed_refl g : stays_well_formed g g.
Proof. split; [auto | split; reflexivity]. Qed.

Lemma stays_well_formed_trans g1 g2 g3 :
  stays_well_formed g1 g2 -> stays_well_formed g2 g3 ->
  stays_well_formed g1 g3.
Proof.
  intros (A1 & A2 & A3) (B1 & B2 & B3).
  split; [auto | split; congruence].
Qed.

Lemma reveal_stays_well_formed idx i j :
  preserves stays_well_formed (reveal idx i j).
Proof.
  intros g. unfold reveal.
  rewrite (bind_ok (gets id) _ g g g eq_refl).
  destruct (decide (in_bounds g (i, j))); [|apply stays_well_formed_refl].
  unfold agent_map_get at 1.
  unfold bind at 1 2, gets, orelse; simpl.
  destruct (agent_maps g !! idx) as [a|] eqn:Ha;
    [|apply stays_well_formed_refl].
  simpl. unfold bind at 1.
  destruct (np_get a i j) as [known|]; [|apply stays_well_formed_refl].
  simpl.
  destruct (decide (known = U)); [|apply stays_well_formed_refl].
  unfold bind at 1. rewrite game_map_get_run.
  destruct (np_get (game_map g) i j) as [t|]; [|apply stays_well_formed_refl].
  unfold agent_map_set, agent_map_get, bind, gets, orelse, modify; simpl.
  rewrite Ha; simpl.
  destruct (np_set a i j t) as [a'|] eqn:Hset; [|apply stays_well_formed_refl].
  simpl. split; [|split; reflexivity].
  intros (W1 & W2 & W3 & W4 & W5 & W6).
  unfold well_formed; simpl. rewrite length_insert.
  repeat split; try assumption; try apply W1.
  apply Forall_insert; [exact W2|].
  eapply np_set_shape; [exact Hset|].
  exact (Forall_lookup_1 _ _ _ _ W2 Ha).
Qed.

Section Safety.

Variable tile_cost : MapTiles -> option Z.
Variable agent_step :
  nat -> nat -> Location -> Z -> ndarray -> ObjectMap -> decision.
Variable random : nat -> float.
Variable idx : nat.

Lemma wf_agent_objects known g :
  stays_well_formed g
    (with_agent_objects (<[idx := known]> (agent_objects g)) g).
Proof.
  split; [|split; reflexivity].
  intros (W1 & W2 & W3 & W4 & W5 & W6). unfold well_formed; simpl.
  rewrite length_insert. repeat split; try assumption; apply W1.
Qed.

Lemma wf_strengths s g : stays_well_formed g (set_strength idx s g).
Proof.
  split; [|split; reflexivity].
  intros (W1 & W2 & W3 & W4 & W5 & W6). unfold well_formed; simpl.
  rewrite length_insert. repeat split; try assumption; apply W1.
Qed.

Lemma wf_objects loc g :
  stays_well_formed g (with_objects (delete loc (objects g)) g).
Proof.
  split; [|split; reflexivity].
  intros (W1 & W2 & W3 & W4 & W5 & W6). unfold well_formed; simpl.
  repeat split; try assumption; apply W1.
Qed.

Lemma wf_locations loc g :
  stays_well_formed g
    (with_agent_locations (<[idx := loc]> (agent_locations g)) g).
Proof.
  split; [|split; reflexivity].
  intros (W1 & W2 & W3 & W4 & W5 & W6). unfold well_formed; simpl.
  rewrite length_insert. repeat split; try assumption; apply W1.
Qed.

Lemma reveal_returns i j g :
  well_formed g -> (idx < agents g)%nat ->
  exists g', reveal idx i j g = (Ok tt, g').
Proof.
  intros (W1 & W2 & W3 & W4 & W5 & W6) Hidx. unfold reveal.
  rewrite (bind_ok (gets id) _ g g g eq_refl).
  destruct (decide (in_bounds g (i, j))) as [[Hi Hj] |]; [|eexists; reflexivity].
  simpl in Hi, Hj.
  destruct (lookup_lt_is_Some_2 (agent_maps g) idx) as [a Ha]; [lia|].
  unfold agent_map_get at 1.
  unfold bind at 1 2, gets, orelse; simpl. rewrite Ha; simpl.
  pose proof (Forall_lookup_1 _ _ _ _ W2 Ha) as Hshape.
  destruct (has_shape_get _ _ _ i j Hshape Hi Hj) as [known Hknown].
  unfold bind at 1. rewrite Hknown; simpl.
  destruct (decide (known = U)) as [-> |]; [|eexists; reflexivity].
  destruct (has_shape_get _ _ _ i j W1 Hi Hj) as [t Ht].
  unfold bind at 1. rewrite game_map_get_run, Ht.
  destruct Hi as [Hi0 _]. destruct Hj as [Hj0 _].
  destruct (np_set_cell a i j U t Hi0 Hj0 Hknown) as (a' & Hset & _).
  unfold agent_map_set, agent_map_get, bind, gets, orelse, modify; simpl.
  rewrite Ha; simpl. rewrite Hset; simpl. eexists; reflexivity.
Qed.

Lemma notice_returns i j g :
  well_formed g -> (idx < agents g)%nat ->
  exists g', notice idx i j g = (Ok tt, g').
Proof.
  intros (W1 & W2 & W3 & W4 & W5 & W6) Hidx. unfold notice.
  rewrite (bind_ok (gets objects) _ g _ g eq_refl).
  destruct (objects g !! (i, j)); [|eexists; reflexivity].
  destruct (lookup_lt_is_Some_2 (agent_objects g) idx) as [known Hknown]; [lia|].
  rewrite (bind_ok _ _ _ _ _ (agent_objects_get_ok _ _ _ Hknown)).
  eexists; reflexivity.
Qed.

Lemma observe_stays_well_formed current_loc off :
  preserves stays_well_formed (observe idx current_loc off).
Proof.
  unfold observe.
  apply (preserves_bind stays_well_formed stays_well_formed_trans).
  - apply reveal_stays_well_formed.
  - intros _.
    apply (notice_preserves stays_well_formed stays_well_formed_refl
             stays_well_formed_trans idx wf_agent_objects).
Qed.

Lemma update_map_returns current_loc g :
  well_formed g -> (idx < agents g)%nat ->
  exists g1,
    update_map idx current_loc g = (Ok tt, g1)
    /\ well_formed g1 /\ game_map g1 = game_map g /\ agents g1 = agents g.
Proof.
  unfold update_map. generalize neighbours as offs.
  intros offs. revert g. induction offs as [|off offs IH]; intros g Hwf Hidx.
  - exists g. split; [reflexivity|]. split; [exact Hwf|]. split; reflexivity.
  - cbn [for_].
    pose proof (observe_stays_well_formed current_loc off g) as (Hkeep & Hmap & Hn).
    assert (Hrun : exists gm, observe idx current_loc off g = (Ok tt, gm)).
    { unfold observe.
      destruct (reveal_returns (current_loc.1 + off.1) (current_loc.2 + off.2)
                  g Hwf Hidx) as [g0 Hreveal].
      rewrite (bind_ok _ _ _ _ _ Hreveal).
      pose proof (reveal_stays_well_formed idx (current_loc.1 + off.1)
                    (current_loc.2 + off.2) g) as (Hk0 & _ & Hn0).
      rewrite Hreveal in Hk0, Hn0. simpl in Hk0, Hn0.
      apply notice_returns; [auto | lia]. }
    destruct Hrun as [gm Hrun]. rewrite Hrun in Hkeep, Hmap, Hn.
    simpl in Hkeep, Hmap, Hn.
    rewrite (bind_ok _ _ _ _ _ Hrun).
    destruct (IH gm (Hkeep Hwf)) as (g1 & Hrest & Hwf1 & Hmap1 & Hn1); [lia|].
    exists g1. split; [exact Hrest|]. split; [exact Hwf1|].
    split; congruence.
Qed.

Lemma ask_returns step g :
  well_formed g -> (idx < agents g)%nat ->
  exists d, ask agent_step step idx g = (Ok d, g).
Proof.
  intros (W1 & W2 & W3 & W4 & W5 & W6) Hidx. unfold ask.
  destruct (lookup_lt_is_Some_2 (agent_locations g) idx) as [loc Hloc]; [lia|].
  destruct (lookup_lt_is_Some_2 (agent_strengths g) idx) as [s Hs]; [lia|].
  destruct (lookup_lt_is_Some_2 (agent_maps g) idx) as [a Ha]; [lia|].
  destruct (lookup_lt_is_Some_2 (agent_objects g) idx) as [known Hknown]; [lia|].
  erewrite bind_ok; cycle 1.
  { unfold location_get, bind, gets, orelse. simpl. rewrite Hloc. reflexivity. }
  rewrite (bind_ok _ _ _ _ _ (strength_get_ok _ _ _ Hs)).
  erewrite bind_ok; cycle 1.
  { unfold agent_map_get, bind, gets, orelse. simpl. rewrite Ha. reflexivity. }
  rewrite (bind_ok _ _ _ _ _ (agent_objects_get_ok _ _ _ Hknown)).
  eexists; reflexivity.
Qed.

Lemma resolve_move_returns current_loc dst_loc g :
  well_formed g -> (idx < agents g)%nat -> costed tile_cost g ->
  exists final_loc g',
    resolve_move tile_cost idx current_loc dst_loc g = (Ok final_loc, g').
Proof.
  intros (W1 & W2 & W3 & W4 & W5 & W6) Hidx Hcost. unfold resolve_move.
  destruct (lookup_lt_is_Some_2 (agent_strengths g) idx) as [s Hs]; [lia|].
  assert (Hstay : (let! _ := pay idx (ret 1) in ret current_loc) g
                  = (Ok current_loc, set_strength idx (s - 1) g)).
  { erewrite bind_ok; [reflexivity|]. eapply pay_ok; [eassumption|reflexivity]. }
  rewrite (bind_ok (gets id) _ g g g eq_refl).
  destruct (decide (~ in_bounds g dst_loc)) as [|Hin]; [eauto|].
  apply dec_stable in Hin. destruct Hin as [Hi Hj].
  destruct (has_shape_get _ _ _ _ _ W1 Hi Hj) as [t Ht].
  unfold bind at 1. rewrite game_map_get_run, Ht.
  destruct (decide (t = WALL)) as [|Hwall]; [eauto|].
  rewrite (bind_ok _ _ _ _ _ (strength_get_ok _ _ _ Hs)).
  destruct (Hcost _ _ _ (np_get_cell _ _ _ _ (proj1 Hi) (proj1 Hj) Ht) Hwall)
    as [c Hc].
  rewrite (bind_ok _ _ _ _ _ (cost_at_ok tile_cost _ _ _ _ Ht Hc)).
  destruct (decide (s < c)); [eauto|].
  erewrite bind_ok; cycle 1.
  { eapply pay_ok; [eassumption|]. eapply cost_at_ok; eassumption. }
  eauto.
Qed.

Lemma interact_raises_only_the_division step final_loc g :
  well_formed g -> (idx < agents g)%nat ->
  (interact random step idx final_loc g).1 = Ok tt
  \/ (interact random step idx final_loc g).1 = Raise ZeroDivisionError
  \/ (interact random step idx final_loc g).1 = Raise OverflowError.
Proof.
  intros (W1 & W2 & W3 & W4 & W5 & W6) Hidx. unfold interact.
  destruct (lookup_lt_is_Some_2 (agent_strengths g) idx) as [s Hs]; [lia|].
  assert (Hlen : (idx < length (agent_objects g))%nat) by lia.
  rewrite (bind_ok (gets objects) _ g _ g eq_refl).
  destruct (objects g !! final_loc) as [[delta | strength | ]|];
    [| | left; reflexivity | left; reflexivity].
  - rewrite (bind_ok _ _ _ _ _ (gain_ok _ _ _ delta Hs)).
    unfold del_object. erewrite (bind_ok (modify _)); [|reflexivity].
    match goal with
    | |- (purge _ _ ?g1).1 = _ \/ _ =>
        destruct (purge_ok idx final_loc g1) as [known Hp]; [exact Hlen|]
    end.
    rewrite Hp. left. reflexivity.
  - destruct (true_div s (s + strength) g) as [[q | e] g0] eqn:Hdiv.
    + left. destruct (true_div_ok _ _ _ _ _ Hdiv) as (_ & _ & ->).
      pose proof (fight_runs random step idx final_loc strength g s q
                    Hs Hlen Hdiv) as Hrun.
      destruct (float_gt (random step) q).
      * destruct Hrun as [known ->]. reflexivity.
      * rewrite Hrun. reflexivity.
    + right. unfold fight.
      rewrite (bind_ok _ _ _ _ _ (strength_get_ok _ _ _ Hs)).
      rewrite (bind_ok _ _ _ _ _ (strength_get_ok _ _ _ Hs)).
      rewrite (bind_raise _ _ _ _ _ Hdiv). simpl.
      rewrite true_div_run in Hdiv.
      destruct (decide (s + strength = 0)).
      * injection Hdiv as <- _. left. reflexivity.
      * destruct (int_true_div s (s + strength)); try discriminate.
        injection Hdiv as <- _. right. reflexivity.
Qed.

Lemma act_stays_well_formed step :
  preserves stays_well_formed (act tile_cost agent_step random step idx).
Proof.
  apply (act_preserves stays_well_formed stays_well_formed_refl
           stays_well_formed_trans idx tile_cost agent_step random
           wf_agent_objects (reveal_stays_well_formed idx)
           wf_strengths wf_objects).
Qed.

Lemma resolve_move_stays_well_formed current_loc dst_loc :
  preserves stays_well_formed (resolve_move tile_cost idx current_loc dst_loc).
Proof.
  apply (resolve_move_preserves stays_well_formed stays_well_formed_refl
           stays_well_formed_trans idx tile_cost wf_strengths).
Qed.

Lemma interact_stays_well_formed step final_loc :
  preserves stays_well_formed (interact random step idx final_loc).
Proof.
  apply (interact_preserves stays_well_formed stays_well_formed_refl
           stays_well_formed_trans idx random
           wf_agent_objects wf_strengths wf_objects).
Qed.

End Safety.

Lemma costed_same_map tile_cost g g' :
  game_map g' = game_map g -> costed tile_cost g -> costed tile_cost g'.
Proof. unfold costed. intros ->. auto. Qed.

Section PlaySafety.

Variable tile_cost : MapTiles -> option Z.
Variable agent_step :
  nat -> nat -> Location -> Z -> ndarray -> ObjectMap -> decision.
Variable random : nat -> float.

Lemma act_safe step idx g :
  well_formed g -> (idx < agents g)%nat -> costed tile_cost g ->
  well_formed (act tile_cost agent_step random step idx g).2
  /\ game_map (act tile_cost agent_step random step idx g).2 = game_map g
  /\ agents (act tile_cost agent_step random step idx g).2 = agents g
  /\ match (act tile_cost agent_step random step idx g).1 with
     | Ok _ => True
     | Raise e => game_exception e
     end.
Proof.
  intros Hwf Hidx Hcost.
  destruct (act_stays_well_formed tile_cost agent_step random idx step g)
    as (Hkeep & Hmap & Hn).
  split; [auto|]. split; [exact Hmap|]. split; [exact Hn|].
  unfold act.
  destruct (lookup_lt_is_Some_2 (agent_locations g) idx) as [cur Hcur].
  { destruct Hwf as (_ & _ & _ & _ & W5 & _). lia. }
  assert (Hget : location_get idx g = (Ok cur, g)).
  { unfold location_get, bind, gets, orelse. simpl. rewrite Hcur. reflexivity. }
  destruct (update_map_returns idx cur g Hwf Hidx)
    as (g1 & Hrefresh & Hwf1 & Hmap1 & Hn1).
  destruct (ask_returns agent_step idx step g1 Hwf1) as [d Hask]; [lia|].
  rewrite (bind_ok _ _ _ _ _ Hget).
  rewrite (bind_ok _ _ _ _ _ Hrefresh).
  rewrite (bind_ok _ _ _ _ _ Hask).
  destruct d as [dir|]; [|left; reflexivity].
  destruct (resolve_move_returns tile_cost idx cur (dst_of dir cur) g1 Hwf1)
    as (final_loc & g2 & Hmove);
    [lia | eapply costed_same_map; eassumption |].
  rewrite (bind_ok _ _ _ _ _ Hmove).
  pose proof (resolve_move_stays_well_formed tile_cost idx cur
                (dst_of dir cur) g1) as (Hk2 & _ & Hn2).
  rewrite Hmove in Hk2, Hn2. simpl in Hk2, Hn2.
  destruct (interact_raises_only_the_division random idx step final_loc g2)
    as [Hok | [Hdiv | Hover]]; [auto | lia | | |].
  - unfold bind.
    destruct (interact random step idx final_loc g2) as [[[] | e] g3];
      [exact I | discriminate].
  - unfold bind.
    destruct (interact random step idx final_loc g2) as [[[] | e] g3];
      [exact I|].
    simpl in Hdiv. injection Hdiv as ->. right. left. reflexivity.
  - unfold bind.
    destruct (interact random step idx final_loc g2) as [[[] | e] g3];
      [exact I|].
    simpl in Hover. injection Hover as ->. right. right. reflexivity.
Qed.

Lemma turn_safe step g :
  well_formed g -> (0 < agents g)%nat -> costed tile_cost g ->
  well_formed (turn tile_cost agent_step random step g).2
  /\ game_map (turn tile_cost agent_step random step g).2 = game_map g
  /\ agents (turn tile_cost agent_step random step g).2 = agents g
  /\ match (turn tile_cost agent_step random step g).1 with
     | Ok _ => True
     | Raise e => game_exception e
     end.
Proof.
  intros Hwf Hn Hcost.
  set (idx := (step mod agents g)%nat).
  assert (Hidx : (idx < agents g)%nat) by (apply Nat.mod_upper_bound; lia).
  unfold turn. rewrite (bind_ok (gets agents) _ g _ g eq_refl). fold idx.
  destruct (act_safe step idx g Hwf Hidx Hcost) as (Hwf3 & Hmap3 & Hn3 & Hexn).
  unfold bind.
  destruct (act tile_cost agent_step random step idx g)
    as [[final_loc | e] g3]; simpl in Hwf3, Hmap3, Hn3, Hexn; [|auto].
  destruct (lookup_lt_is_Some_2 (agent_locations g3) idx) as [loc Hloc].
  { destruct Hwf3 as (_ & _ & _ & _ & W5 & _). lia. }
  destruct (lookup_lt_is_Some_2 (agent_strengths g3) idx) as [s Hs].
  { destruct Hwf3 as (_ & _ & _ & _ & _ & W6). lia. }
  rewrite (finish_runs idx final_loc g3 s (ex_intro _ loc Hloc) Hs). simpl.
  split; [|auto].
  apply (wf_locations idx final_loc g3). exact Hwf3.
Qed.

(** X9.  On a well-formed driver with at least one agent and a cost for
    every tile of the map that is not a wall, a run of [play] never raises
    an [IndexError] or a [KeyError]: if it is aborted at all, then by the
    [assert] on an agent's answer or by the division of a fight (a zero
    divisor, or a quotient too large for a [float]); and the driver it
    leaves is well-formed again. *)
Theorem play_raises_only_game_exceptions (fuel : nat) (g : GameDriver) :
  well_formed g -> (0 < agents g)%nat -> costed tile_cost g ->
  well_formed (play tile_cost agent_step random fuel g).2
  /\ forall e,
       (play tile_cost agent_step random fuel g).1 = Aborted e ->
       e <> IndexError /\ e <> KeyError
       /\ (e = AssertionError \/ e = ZeroDivisionError
           \/ e = OverflowError).
Proof.
  intros Hwf Hn Hcost. unfold play.
  rewrite decide_False by lia.
  generalize 0%nat as step. revert g Hwf Hn Hcost.
  induction fuel as [|fuel IH]; intros g Hwf Hn Hcost step.
  - simpl. split; [exact Hwf | discriminate].
  - cbn [play_from].
    destruct (turn_safe step g Hwf Hn Hcost) as (Hwf' & Hmap' & Hn' & Hexn).
    destruct (turn tile_cost agent_step random step g)
      as [[[ | | ] | e] g']; simpl in Hwf', Hmap', Hn', Hexn.
    + split; [exact Hwf' | discriminate].
    + split; [exact Hwf' | discriminate].
    + apply IH; [exact Hwf' | lia | eapply costed_same_map; eassumption].
    + split; [exact Hwf'|]. intros e' He'. injection He' as <-.
      split; [|split; [|exact Hexn]];
        intros ->; destruct Hexn as [H | [H | H]]; discriminate.
Qed.

End PlaySafety.

Lemma corridor_well_formed : well_formed corridor.
Proof.
  unfold well_formed, has_shape. simpl.
  repeat split; repeat constructor.
Qed.

Lemma corridor_costed : costed sample_cost corridor.
Proof.
  intros r c t Hcell Hwall.
  destruct t; try (eexists; reflexivity); [|contradiction].
  exfalso. unfold cell in Hcell. simpl in Hcell.
  destruct r as [|r]; [|destruct r; discriminate].
  destruct c as [|[|[|[|c]]]]; simpl in Hcell; discriminate.
Qed.

Lemma play_raises_only_game_exceptions_witness :
  well_formed (play sample_cost corridor_agents half 3 corridor).2
  /\ forall e,
       (play sample_cost corridor_agents half 3 corridor).1 = Aborted e ->
       e <> IndexError /\ e <> KeyError
       /\ (e = AssertionError \/ e = ZeroDivisionError
           \/ e = OverflowError).
Proof.
  apply (play_raises_only_game_exceptions sample_cost corridor_agents half 3
           corridor).
  - exact corridor_well_formed.
  - simpl. lia.
  - exact corridor_costed.
Defined.

(** * Further properties of the set-up *)

Section SetupMore.

Variable powerup_delta : nat -> Z.
Variable monster_strength : nat -> Z.

Lemma place_objects_spec nonwall powerups cnt indices objs objs' :
  place_objects powerup_delta monster_strength nonwall powerups cnt indices objs
  = Some objs' ->
  forall loc, is_Some (objs' !! loc) -> is_Some (objs !! loc) \/ loc ∈ nonwall.
Proof.
  revert cnt objs. induction indices as [|idx indices IH]; intros cnt objs; simpl.
  - intros H. injection H as <-. auto.
  - destruct (nonwall !! idx) as [l|] eqn:Hl; [|discriminate].
    intros H loc Hloc. destruct (IH _ _ H loc Hloc) as [Hin | Hin]; [|auto].
    destruct (decide (loc = l)) as [-> | Hne].
    + right. eapply list_elem_of_lookup_2; eassumption.
    + left. rewrite lookup_insert_ne in Hin by auto. exact Hin.
Qed.

(** What a run of [initialize_game] that returns has computed. *)
Lemma initialize_game_inv tiles object_indices draws g g' :
  initialize_game powerup_delta monster_strength tiles object_indices draws g
  = Some (Ok g') ->
  exists objs boss_loc locs,
    place_objects powerup_delta monster_strength (nonwall_indices tiles)
      (num_powerups g) 0 (tail object_indices) (objects g) = Some objs
    /\ nonwall_indices tiles !! 0%nat = Some boss_loc
    /\ place_agents (agents g) (nonwall_indices tiles) boss_loc
         (agent_locations g) draws = Some locs
    /\ (num_monsters g + num_powerups g + 1
        <= length (nonwall_indices tiles))%nat
    /\ game_map g' = tiles
    /\ objects g' = <[boss_loc := Boss]> objs
    /\ goal_loc g' = boss_loc
    /\ agent_locations g' = locs
    /\ agent_maps g'
       = agent_maps g
         ++ replicate (agents g)
              (replicate (Z.to_nat (height g))
                 (replicate (Z.to_nat (width g)) U))
    /\ agent_objects g' = agent_objects g ++ replicate (agents g) ∅
    /\ agent_strengths g' = agent_strengths g
    /\ width g' = width g /\ height g' = height g /\ agents g' = agents g.
Proof.
  unfold initialize_game.
  destruct (decide (length (nonwall_indices tiles)
                    < num_monsters g + num_powerups g + 1)%nat) as [|Hk];
    [discriminate|].
  destruct (place_objects _ _ _ _ _ _ _) as [objs|] eqn:Hobjs; [|discriminate].
  destruct (nonwall_indices tiles !! 0%nat) as [boss_loc|] eqn:Hboss;
    [|discriminate].
  simpl.
  destruct (place_agents _ _ _ _ _) as [locs|] eqn:Hlocs; [|discriminate].
  intros H. injection H as <-. simpl.
  exists objs, boss_loc, locs. repeat split; auto. lia.
Qed.

Lemma nonwall_row_head i j0 row loc rest :
  nonwall_row i j0 row = loc :: rest ->
  exists (k : nat) t,
    loc = (i, j0 + Z.of_nat k) /\ row !! k = Some t /\ t <> WALL
    /\ forall (k' : nat) t',
         (k' < k)%nat -> row !! k' = Some t' -> t' = WALL.
Proof.
  revert j0. induction row as [|t row IH]; intros j0; simpl; [discriminate|].
  destruct (decide (t = WALL)) as [-> | Hopen]; simpl.
  - intros H. destruct (IH _ H) as (k & t & -> & Hk & Ht & Hbefore).
    exists (S k), t. split; [f_equal; lia|]. split; [exact Hk|].
    split; [exact Ht|]. intros [|k'] t' Hlt; simpl.
    + intros H'. injection H' as <-. reflexivity.
    + apply Hbefore. lia.
  - intros H. injection H as <- _. exists 0%nat, t.
    split; [f_equal; lia|]. split; [reflexivity|]. split; [exact Hopen|].
    intros k' t' Hlt. lia.
Qed.

Lemma nonwall_row_none i j0 row :
  nonwall_row i j0 row = [] ->
  forall (k : nat) t, row !! k = Some t -> t = WALL.
Proof.
  revert j0. induction row as [|t row IH]; intros j0; simpl.
  - intros _ k t' H. destruct k; discriminate.
  - destruct (decide (t = WALL)) as [-> | Hopen]; simpl; [|discriminate].
    intros H [|k] t'; simpl.
    + intros H'. injection H' as <-. reflexivity.
    + apply (IH _ H).
Qed.

(** The head of [nonwall_indices]: every cell before it, row by row, is a
    wall. *)
Lemma nonwall_rows_head i0 a loc :
  nonwall_rows i0 a !! 0%nat = Some loc ->
  exists (r k : nat) t,
    loc = (i0 + Z.of_nat r, Z.of_nat k)
    /\ cell a r k = Some t /\ t <> WALL
    /\ forall (r' c' : nat) t',
         (r' < r)%nat \/ (r' = r /\ (c' < k)%nat) ->
         cell a r' c' = Some t' -> t' = WALL.
Proof.
  revert i0. induction a as [|row a IH]; intros i0; simpl; [discriminate|].
  destruct (nonwall_row i0 0 row) as [|l rest] eqn:Hrow; simpl.
  - intros H. destruct (IH _ H) as (r & k & t & -> & Hcell & Ht & Hbefore).
    exists (S r), k, t. split; [f_equal; lia|]. split; [exact Hcell|].
    split; [exact Ht|]. intros [|r'] c' t' Hlt; unfold cell; simpl.
    + apply (nonwall_row_none _ _ _ Hrow).
    + apply (Hbefore r' c' t'). lia.
  - intros H. injection H as <-.
    destruct (nonwall_row_head _ _ _ _ _ Hrow) as (k & t & -> & Hk & Ht & Hbefore).
    exists 0%nat, k, t. split; [f_equal; lia|]. split; [exact Hk|].
    split; [exact Ht|]. intros r' c' t' [Hlt | [-> Hlt]]; [lia|].
    unfold cell. simpl. apply Hbefore. exact Hlt.
Qed.

(** X11.  The goal is the first cell of the map, row by row, that is not a
    wall, whatever the object indices drawn: it is the head of the cells
    that are not walls, it holds a tile other than [WALL], every cell of an
    earlier row and every earlier cell of its row is a wall, and the object
    map holds the boss there. *)
Theorem boss_on_first_open_cell (tiles : ndarray)
    (object_indices draws : list nat) (g g' : GameDriver) :
  initialize_game powerup_delta monster_strength tiles object_indices draws g
  = Some (Ok g') ->
  nonwall_indices tiles !! 0%nat = Some (goal_loc g')
  /\ objects g' !! goal_loc g' = Some Boss
  /\ (exists t,
        np_get (game_map g') (goal_loc g').1 (goal_loc g').2 = Some t
        /\ t <> WALL)
  /\ exists (r c : nat) t,
       goal_loc g' = (Z.of_nat r, Z.of_nat c)
       /\ cell (game_map g') r c = Some t /\ t <> WALL
       /\ forall (r' c' : nat) t',
            (r' < r)%nat \/ (r' = r /\ (c' < c)%nat) ->
            cell (game_map g') r' c' = Some t' -> t' = WALL.
Proof.
  intros H. apply initialize_game_inv in H
    as (objs & boss_loc & locs & _ & Hboss & _ & _ & Hmap & Hobjs & Hgoal & _).
  rewrite Hgoal, Hobjs, Hmap. split; [exact Hboss|]. split; [|split].
  - apply lookup_insert_eq.
  - apply nonwall_indices_spec. eapply list_elem_of_lookup_2; eassumption.
  - destruct (nonwall_rows_head 0 tiles boss_loc Hboss)
      as (r & c & t & -> & Hcell & Ht & Hbefore).
    exists r, c, t. split; [f_equal; lia|]. auto.
Qed.

(** X12.  On a driver without objects, every object that [initialize_game]
    places lies on a cell of the map that is not a wall. *)
Theorem objects_on_open_cells (tiles : ndarray)
    (object_indices draws : list nat) (g g' : GameDriver)
    (loc : Location) (o : GameObject) :
  objects g = ∅ ->
  initialize_game powerup_delta monster_strength tiles object_indices draws g
  = Some (Ok g') ->
  objects g' !! loc = Some o ->
  exists t, np_get (game_map g') loc.1 loc.2 = Some t /\ t <> WALL.
Proof.
  intros Hempty H Hloc. apply initialize_game_inv in H
    as (objs & boss_loc & locs & Hplace & Hboss & _ & _ & Hmap & Hobjs & _).
  rewrite Hmap. apply nonwall_indices_spec.
  rewrite Hobjs in Hloc.
  destruct (decide (loc = boss_loc)) as [-> | Hne].
  - eapply list_elem_of_lookup_2; eassumption.
  - rewrite lookup_insert_ne in Hloc by auto.
    destruct (place_objects_spec _ _ _ _ _ _ Hplace loc) as [Hin | Hin];
      [eauto | | exact Hin].
    rewrite Hempty, lookup_empty in Hin. destruct Hin; discriminate.
Qed.

(** X13.  [initialize_game] returns only when there are fewer agents than cells
    that are not walls: each agent needs a cell of its own that is not the
    goal. *)
Theorem agents_fewer_than_open_cells (tiles : ndarray)
    (object_indices draws : list nat) (g g' : GameDriver) :
  agent_locations g = [] ->
  initialize_game powerup_delta monster_strength tiles object_indices draws g
  = Some (Ok g') ->
  (agents g < length (nonwall_indices tiles))%nat.
Proof.
  intros Hempty H. apply initialize_game_inv in H
    as (objs & boss_loc & locs & _ & Hboss & Hplace & _).
  rewrite Hempty in Hplace.
  apply place_agents_spec in Hplace as (Hok & Hnd & Hlen);
    [|constructor|constructor].
  simpl in Hlen.
  assert (Hsub : boss_loc :: locs ⊆+ nonwall_indices tiles).
  { apply NoDup_submseteq.
    - apply NoDup_cons. split; [|exact Hnd].
      intros Hin. rewrite Forall_forall in Hok.
      destruct (Hok _ Hin) as [_ Hne]. contradiction.
    - intros x Hx. apply elem_of_cons in Hx as [-> | Hx].
      + eapply list_elem_of_lookup_2; eassumption.
      + rewrite Forall_forall in Hok. apply (Hok _ Hx). }
  apply submseteq_length in Hsub. simpl in Hsub. lia.
Qed.

(** X10.  A driver that [__init__] has filled and [initialize_game] has set up on
    a map of the declared shape is well-formed. *)
Theorem initialize_game_well_formed (tiles : ndarray)
    (object_indices draws : list nat)
    (height width : Z) (num_powerups num_monsters agents : nat)
    (initial_strength : Z) (g' : GameDriver) :
  has_shape height width tiles ->
  initialize_game powerup_delta monster_strength tiles object_indices draws
    (fresh height width num_powerups num_monsters agents initial_strength)
  = Some (Ok g') ->
  well_formed g'.
Proof.
  intros Hshape H. apply initialize_game_inv in H
    as (objs & boss_loc & locs & _ & _ & Hplace & _ & Hmap & _ & _ & Hlocs
        & Hmaps & Hknown & Hstr & Hw & Hh & Hn).
  simpl in *.
  apply place_agents_spec in Hplace as (_ & _ & Hlen);
    [|constructor|constructor].
  simpl in Hlen.
  unfold well_formed. rewrite Hmap, Hmaps, Hknown, Hstr, Hlocs, Hw, Hh, Hn.
  rewrite !length_replicate.
  split; [exact Hshape|]. split; [|auto].
  apply Forall_replicate.
  destruct Hshape as [Hrows Hcols]. split.
  - rewrite length_replicate. lia.
  - destruct tiles as [|row tiles'].
    + simpl in Hrows. subst height. simpl. constructor.
    + apply Forall_replicate. rewrite length_replicate.
      apply Forall_cons in Hcols as [Hrow _]. lia.
Qed.

(** X14.  After [initialize_game] on a driver that [__init__] has filled, every
    agent's private map holds [U] in every cell and every agent's private
    object map is empty. *)
Theorem initial_knowledge_is_empty (tiles : ndarray)
    (object_indices draws : list nat)
    (height width : Z) (num_powerups num_monsters agents : nat)
    (initial_strength : Z) (g' : GameDriver) :
  initialize_game powerup_delta monster_strength tiles object_indices draws
    (fresh height width num_powerups num_monsters agents initial_strength)
  = Some (Ok g') ->
  (forall a r c t, private_cell g' a r c = Some t -> t = U)
  /\ (forall a loc, ~ knows_object g' a loc)
  /\ length (agent_maps g') = agents
  /\ length (agent_objects g') = agents.
Proof.
  intros H. apply initialize_game_inv in H
    as (objs & boss_loc & locs & _ & _ & _ & _ & _ & _ & _ & _
        & Hmaps & Hknown & _).
  simpl in *. split; [|split].
  - intros a r c t. unfold private_cell, cell. rewrite Hmaps.
    destruct (replicate agents _ !! a) as [m|] eqn:Hm; [|discriminate].
    apply lookup_replicate in Hm as [-> _].
    destruct (replicate (Z.to_nat height) _ !! r) as [row|] eqn:Hrow;
      [|discriminate].
    apply lookup_replicate in Hrow as [-> _].
    intros Hc. apply lookup_replicate in Hc as [-> _]. reflexivity.
  - intros a loc (known & Hk & Hsome). rewrite Hknown in Hk.
    apply lookup_replicate in Hk as [-> _].
    rewrite lookup_empty in Hsome. destruct Hsome; discriminate.
  - rewrite Hmaps, Hknown, !length_replicate. auto.
Qed.

End SetupMore.

Lemma sample_game_runs :
  initialize_game (fun _ => 5) (fun _ => 3) sample_tiles
    [2; 1; 3]%nat [0; 1; 1; 3]%nat (fresh 2 3 1 1 2 10)
  = Some (Ok sample_game).
Proof. vm_compute. reflexivity. Qed.

Lemma boss_on_first_open_cell_witness :
  goal_loc sample_game = (0, 1)
  /\ cell (game_map sample_game) 0 0 = Some WALL
  /\ nonwall_indices sample_tiles !! 0%nat = Some (goal_loc sample_game)
  /\ objects sample_game !! goal_loc sample_game = Some Boss
  /\ (exists t,
        np_get (game_map sample_game) (goal_loc sample_game).1
          (goal_loc sample_game).2 = Some t
        /\ t <> WALL)
  /\ exists (r c : nat) t,
       goal_loc sample_game = (Z.of_nat r, Z.of_nat c)
       /\ cell (game_map sample_game) r c = Some t /\ t <> WALL
       /\ forall (r' c' : nat) t',
            (r' < r)%nat \/ (r' = r /\ (c' < c)%nat) ->
            cell (game_map sample_game) r' c' = Some t' -> t' = WALL.
Proof.
  split; [reflexivity|]. split; [reflexivity|].
  apply (boss_on_first_open_cell (fun _ => 5) (fun _ => 3) sample_tiles
           [2; 1; 3]%nat [0; 1; 1; 3]%nat (fresh 2 3 1 1 2 10) sample_game).
  exact sample_game_runs.
Defined.

Lemma objects_on_open_cells_witness :
  exists t, np_get (game_map sample_game) (1, 1).1 (1, 1).2 = Some t
            /\ t <> WALL.
Proof.
  apply (objects_on_open_cells (fun _ => 5) (fun _ => 3) sample_tiles
           [2; 1; 3]%nat [0; 1; 1; 3]%nat (fresh 2 3 1 1 2 10) sample_game
           (1, 1) (StaticMonster 3)).
  - reflexivity.
  - exact sample_game_runs.
  - vm_compute. reflexivity.
Defined.

Lemma agents_fewer_than_open_cells_witness :
  (agents (fresh 2 3 1 1 2 10) < length (nonwall_indices sample_tiles))%nat.
Proof.
  apply (agents_fewer_than_open_cells (fun _ => 5) (fun _ => 3) sample_tiles
           [2; 1; 3]%nat [0; 1; 1; 3]%nat (fresh 2 3 1 1 2 10) sample_game).
  - reflexivity.
  - exact sample_game_runs.
Defined.

Lemma sample_tiles_shape : has_shape 2 3 sample_tiles.
Proof. unfold has_shape. simpl. split; [reflexivity | repeat constructor]. Qed.

Lemma initialize_game_well_formed_witness : well_formed sample_game.
Proof.
  apply (initialize_game_well_formed (fun _ => 5) (fun _ => 3) sample_tiles
           [2; 1; 3]%nat [0; 1; 1; 3]%nat 2 3 1 1 2 10 sample_game).
  - exact sample_tiles_shape.
  - exact sample_game_runs.
Defined.

Lemma initial_knowledge_is_empty_witness :
  (forall a r c t, private_cell sample_game a r c = Some t -> t = U)
  /\ (forall a loc, ~ knows_object sample_game a loc)
  /\ length (agent_maps sample_game) = 2%nat
  /\ length (agent_objects sample_game) = 2%nat.
Proof.
  apply (initial_knowledge_is_empty (fun _ => 5) (fun _ => 3) sample_tiles
           [2; 1; 3]%nat [0; 1; 1; 3]%nat 2 3 1 1 2 10 sample_game).
  exact sample_game_runs.
Defined.

(** ** The loop that draws an agent's location *)

(** X15.  The loop ends on the first free cell drawn: when the draws
    begin with indices of cells that are the goal or taken and go on with
    the index of a free cell, that cell is the location, and the draws that
    follow it are left unused. *)
Theorem draw_location_ends (nonwall : list Location) (goal : Location)
    (placed : list Location) (rejected : list nat) (idx : nat)
    (rest : list nat) (loc : Location) :
  Forall (fun i => exists l, nonwall !! i = Some l
                             /\ (l = goal \/ l ∈ placed)) rejected ->
  nonwall !! idx = Some loc ->
  loc <> goal ->
  loc ∉ placed ->
  draw_location nonwall goal placed (rejected ++ idx :: rest)
  = Some (loc, rest).
Proof.
  intros Hrej Hloc Hgoal Hfree.
  induction rejected as [|i rejected IH]; simpl.
  - rewrite Hloc. rewrite decide_False; [reflexivity|].
    intros [-> | Hex]; [contradiction|].
    apply Exists_eq_elem_of in Hex. contradiction.
  - apply Forall_cons in Hrej as [(l & Hl & Htaken) Hrej].
    rewrite Hl. rewrite decide_True; [exact (IH Hrej)|].
    destruct Htaken as [-> | Hin]; [left; reflexivity|].
    right. apply Exists_eq_elem_of. exact Hin.
Qed.

Lemma draw_location_ends_witness :
  nonwall_indices sample_tiles = [(0, 1); (0, 2); (1, 0); (1, 1)]
  /\ draw_location (nonwall_indices sample_tiles) (0, 1) [(0, 2)]
       ([1; 0]%nat ++ 3%nat :: [2]%nat) = Some ((1, 1), [2]%nat).
Proof.
  split; [reflexivity|].
  apply (draw_location_ends (nonwall_indices sample_tiles) (0, 1) [(0, 2)]
           [1; 0]%nat 3 [2]%nat (1, 1)).
  - repeat constructor.
    + exists (0, 2). split; [reflexivity|]. right. apply list_elem_of_here.
    + exists (0, 1). split; [reflexivity|]. left. reflexivity.
  - reflexivity.
  - discriminate.
  - intros Hin. apply list_elem_of_singleton in Hin. discriminate.
Defined.

(** X16.  When every cell that is not a wall is the goal or is taken, no draws,
    however many, end the loop: the set-up of one agent more does not
    return. *)
Theorem draw_location_never_ends (nonwall : list Location) (goal : Location)
    (placed : list Location) (draws : list nat) :
  (forall loc, loc ∈ nonwall -> loc = goal \/ loc ∈ placed) ->
  draw_location nonwall goal placed draws = None.
Proof.
  intros Hfull. induction draws as [|idx draws IH]; simpl; [reflexivity|].
  destruct (nonwall !! idx) as [loc|] eqn:Hloc; [|reflexivity].
  rewrite decide_True; [exact IH|].
  destruct (Hfull loc (list_elem_of_lookup_2 _ _ _ Hloc)) as [-> | Hin];
    [left; reflexivity|].
  right. apply Exists_eq_elem_of. exact Hin.
Qed.

Lemma draw_location_never_ends_witness :
  draw_location [(0, 1); (0, 2)] (0, 1) [(0, 2)] [1; 0; 1; 1; 0]%nat = None.
Proof.
  apply (draw_location_never_ends [(0, 1); (0, 2)] (0, 1) [(0, 2)]).
  intros loc Hin.
  apply elem_of_cons in Hin as [-> | Hin]; [left; reflexivity|].
  right. exact Hin.
Defined.

(** ** The constructor *)

Section Constructor.

Variable powerup_delta : nat -> Z.
Variable monster_strength : nat -> Z.
Variable tile_cost : MapTiles -> option Z.
Variable agent_step :
  nat -> nat -> Location -> Z -> ndarray -> ObjectMap -> decision.
Variable random : nat -> float.

(** X17.  The [assert] of [__init__] counts every cell of the map, the sampling
    of [initialize_game] only those that are not walls: a number of objects
    that passes the one can still be too large for the other, and the
    constructor then raises [ValueError]. *)
Theorem walls_defeat_the_size_check (height width : Z)
    (num_powerups num_monsters agents : nat) (initial_strength : Z)
    (tiles : ndarray) (object_indices draws : list nat) :
  Z.of_nat (num_monsters + num_powerups + 1) <= height * width ->
  (length (nonwall_indices tiles) < num_monsters + num_powerups + 1)%nat ->
  new_GameDriver powerup_delta monster_strength height width num_powerups
    num_monsters agents initial_strength false tiles object_indices draws
  = Some (Raise ValueError).
Proof.
  intros Hassert Hwalls. unfold new_GameDriver.
  rewrite decide_True by exact Hassert.
  unfold initialize_game. simpl.
  rewrite decide_True by exact Hwalls. reflexivity.
Qed.

(** X18.  A driver constructed from a map file has no agent placed, [load_map]
    being empty: with at least one agent, [play] is aborted by an
    [IndexError] in its first iteration, before anything is written. *)
Theorem loaded_game_cannot_be_played (height width : Z)
    (num_powerups num_monsters agents : nat) (initial_strength : Z)
    (tiles : ndarray) (object_indices draws : list nat)
    (fuel : nat) (g : GameDriver) :
  new_GameDriver powerup_delta monster_strength height width num_powerups
    num_monsters agents initial_strength true tiles object_indices draws
  = Some (Ok g) ->
  (0 < agents)%nat ->
  play tile_cost agent_step random (S fuel) g = (Aborted IndexError, g).
Proof.
  unfold new_GameDriver.
  destruct (decide (Z.of_nat (num_monsters + num_powerups + 1)
                    <= height * width)); [|discriminate].
  intros H Hn. injection H as <-. unfold load_map, play. simpl.
  rewrite decide_False by lia.
  unfold turn, act, location_get, bind, gets, orelse. simpl. reflexivity.
Qed.

End Constructor.

Lemma walls_defeat_the_size_check_witness :
  new_GameDriver (fun _ => 5) (fun _ => 3) 2 3 2 2 1 10 false sample_tiles
    [0; 1; 2; 3]%nat [1]%nat
  = Some (Raise ValueError).
Proof.
  apply walls_defeat_the_size_check.
  - simpl. lia.
  - simpl. lia.
Defined.

Lemma loaded_game_cannot_be_played_witness :
  play sample_cost go_east half 1 (fresh 2 3 1 1 2 10)
  = (Aborted IndexError, fresh 2 3 1 1 2 10).
Proof.
  apply (loaded_game_cannot_be_played (fun _ => 5) (fun _ => 3) sample_cost
           go_east half 2 3 1 1 2 10 sample_tiles [] [] 0
           (fresh 2 3 1 1 2 10)).
  - reflexivity.
  - lia.
Defined.

(** * What the agents know is true *)

Lemma stays_sound_refl g : stays_sound g g.
Proof. split; auto. Qed.

Lemma stays_sound_trans g1 g2 g3 :
  stays_sound g1 g2 -> stays_sound g2 g3 -> stays_sound g1 g3.
Proof. intros [A1 A2] [B1 B2]. split; [congruence | auto]. Qed.

Lemma stays_sound_same_maps g g' :
  game_map g' = game_map g -> agent_maps g' = agent_maps g -> stays_sound g g'.
Proof.
  intros Hm Ha. split; [exact Hm|]. intros Hs a r c t.
  unfold private_cell. rewrite Ha, Hm. apply Hs.
Qed.

Lemma reveal_stays_sound idx i j : preserves stays_sound (reveal idx i j).
Proof.
  intros g. unfold reveal.
  rewrite (bind_ok (gets id) _ g g g eq_refl).
  destruct (decide (in_bounds g (i, j))) as [[[Hi _] [Hj _]] |];
    [simpl in Hi, Hj | apply stays_sound_refl].
  unfold agent_map_get at 1.
  unfold bind at 1 2, gets, orelse; simpl.
  destruct (agent_maps g !! idx) as [a|] eqn:Ha; [|apply stays_sound_refl].
  simpl. unfold bind at 1.
  destruct (np_get a i j) as [known|] eqn:Hknown; [|apply stays_sound_refl].
  simpl.
  destruct (decide (known = U)) as [-> |]; [|apply stays_sound_refl].
  unfold bind at 1. rewrite game_map_get_run.
  destruct (np_get (game_map g) i j) as [t|] eqn:Ht; [|apply stays_sound_refl].
  destruct (np_set_cell a i j U t Hi Hj Hknown) as (a' & Hset & Hcells).
  unfold agent_map_set, agent_map_get, bind, gets, orelse, modify; simpl.
  rewrite Ha; simpl. rewrite Hset; simpl.
  split; [reflexivity|].
  intros Hsound a0 r c t0. unfold private_cell; simpl.
  destruct (decide (a0 = idx)) as [-> | Hne].
  - rewrite list_lookup_insert_eq by (eapply lookup_lt_Some; eassumption).
    rewrite Hcells.
    destruct (decide (r = Z.to_nat i /\ c = Z.to_nat j)) as [[-> ->] |].
    + intros H. injection H as <-. right. apply np_get_cell; assumption.
    + intros H. apply (Hsound idx r c t0). unfold private_cell.
      rewrite Ha. exact H.
  - rewrite list_lookup_insert_ne by auto. apply (Hsound a0 r c t0).
Qed.

Section Knowledge.

Variable tile_cost : MapTiles -> option Z.
Variable agent_step :
  nat -> nat -> Location -> Z -> ndarray -> ObjectMap -> decision.
Variable random : nat -> float.

Lemma turn_stays_sound step g :
  stays_sound g (turn tile_cost agent_step random step g).2.
Proof.
  unfold turn. rewrite (bind_ok (gets agents) _ g _ g eq_refl).
  set (idx := (step mod agents g)%nat).
  apply (preserves_bind stays_sound stays_sound_trans).
  - apply (act_preserves stays_sound stays_sound_refl stays_sound_trans idx).
    + intros known g0. apply stays_sound_same_maps; reflexivity.
    + apply reveal_stays_sound.
    + intros s g0. apply stays_sound_same_maps; reflexivity.
    + intros loc g0. apply stays_sound_same_maps; reflexivity.
  - intros final_loc.
    apply (finish_preserves stays_sound stays_sound_refl stays_sound_trans).
    intros loc g0. apply stays_sound_same_maps; reflexivity.
Qed.

Lemma play_from_stays_sound fuel step g :
  stays_sound g (play_from tile_cost agent_step random fuel step g).2.
Proof.
  revert step g. induction fuel as [|fuel IH]; intros step g.
  - apply stays_sound_refl.
  - cbn [play_from]. pose proof (turn_stays_sound step g) as Hturn.
    destruct (turn tile_cost agent_step random step g) as [[[ | | ] | e] g'];
      simpl in Hturn; try exact Hturn.
    eapply stays_sound_trans; [exact Hturn | apply IH].
Qed.

(** X19.  When every private cell holds [U] or the game map's tile of that cell,
    then so it is after any run of [play]: an agent's map may be
    incomplete, but it never shows a tile that the game map does not have
    there. *)
Theorem knowledge_stays_sound (fuel : nat) (g : GameDriver) :
  knowledge_sound g ->
  knowledge_sound (play tile_cost agent_step random fuel g).2.
Proof.
  intros Hsound. unfold play.
  destruct (decide (agents g = 0%nat)); [exact Hsound|].
  apply (play_from_stays_sound fuel 0 g). exact Hsound.
Qed.

End Knowledge.

Lemma corridor_knowledge_sound : knowledge_sound corridor.
Proof.
  intros a r c t H. left. unfold private_cell, cell in H.
  assert (Hrow : exists row, [U; U; U; U] = row /\ row !! c = Some t).
  { destruct a as [|[|a]]; simpl in H; [| |discriminate];
      (destruct r as [|r]; simpl in H; [eauto | destruct r; discriminate]). }
  destruct Hrow as (row & <- & Hc).
  clear H.
  destruct c as [|[|[|[|c]]]]; simpl in Hc;
    try (injection Hc as <-; reflexivity); discriminate.
Qed.

Lemma knowledge_stays_sound_witness :
  knowledge_sound (play sample_cost corridor_agents half 3 corridor).2.
Proof.
  apply (knowledge_stays_sound sample_cost corridor_agents half 3 corridor).
  exact corridor_knowledge_sound.
Defined.

(** * A game without power-ups and monsters ends *)

Lemma bind_inv {A B} (m : M A) (k : A -> M B) g b g' :
  bind m k g = (Ok b, g') ->
  exists a g1, m g = (Ok a, g1) /\ k a g1 = (Ok b, g').
Proof.
  unfold bind. destruct (m g) as [[a | e] g1]; [eauto | discriminate].
Qed.

Lemma location_get_inv idx g loc g' :
  location_get idx g = (Ok loc, g') ->
  g' = g /\ agent_locations g !! idx = Some loc.
Proof.
  unfold location_get, bind, gets, orelse. simpl.
  destruct (agent_locations g !! idx); [|discriminate].
  intros H. injection H as <- <-. auto.
Qed.

Lemma strength_get_inv idx g s g' :
  strength_get idx g = (Ok s, g') ->
  g' = g /\ agent_strengths g !! idx = Some s.
Proof.
  unfold strength_get, bind, gets, orelse. simpl.
  destruct (agent_strengths g !! idx); [|discriminate].
  intros H. injection H as <- <-. auto.
Qed.

Lemma ask_inv agent_step step idx g d g' :
  ask agent_step step idx g = (Ok d, g') -> g' = g.
Proof.
  unfold ask, location_get, strength_get, agent_map_get, agent_objects_get,
    bind, gets, orelse, ret. simpl.
  destruct (agent_locations g !! idx); [|discriminate]. simpl.
  destruct (agent_strengths g !! idx); [|discriminate]. simpl.
  destruct (agent_maps g !! idx); [|discriminate]. simpl.
  destruct (agent_objects g !! idx); [|discriminate]. simpl.
  intros H. injection H as _ <-. reflexivity.
Qed.

Lemma quiet_same_objects g g' :
  objects g' = objects g -> quiet g -> quiet g'.
Proof. unfold quiet. intros ->. auto. Qed.

Lemma quiet_fewer_objects g g' :
  objects g' ⊆ objects g -> quiet g -> quiet g'.
Proof.
  intros Hsub Hq loc o Ho. apply (Hq loc). eapply lookup_weaken; eassumption.
Qed.

(** With the boss at most on the map, the interaction writes nothing. *)
Lemma interact_quiet random step idx final_loc g :
  quiet g -> interact random step idx final_loc g = (Ok tt, g).
Proof.
  intros Hq. unfold interact.
  rewrite (bind_ok (gets objects) _ g _ g eq_refl).
  destruct (objects g !! final_loc) as [o|] eqn:Ho; [|reflexivity].
  rewrite (Hq _ _ Ho). reflexivity.
Qed.

Section Ending.

Variable tile_cost : MapTiles -> option Z.
Variable agent_step :
  nat -> nat -> Location -> Z -> ndarray -> ObjectMap -> decision.
Variable random : nat -> float.

Hypothesis costs : costs_positive tile_cost.

(** On a quiet map, an iteration that returns has cost the acting agent at
    least one point of strength, and the agent has some left when the loop
    goes on. *)
Lemma turn_costs_strength step g st g' s :
  quiet g ->
  turn tile_cost agent_step random step g = (Ok st, g') ->
  agent_strengths g !! (step mod agents g)%nat = Some s ->
  exists s',
    agent_strengths g' !! (step mod agents g)%nat = Some s'
    /\ s' <= s - 1
    /\ (st = Continue -> 0 < s').
Proof.
  intros Hq Hturn Hs. set (idx := (step mod agents g)%nat) in *.
  unfold turn in Hturn.
  rewrite (bind_ok (gets agents) _ g _ g eq_refl) in Hturn. fold idx in Hturn.
  apply bind_inv in Hturn as (final_loc & g3 & Hact & Hfinish).
  unfold act in Hact.
  apply bind_inv in Hact as (cur & g0 & Hget & Hact).
  apply location_get_inv in Hget as [-> Hcur].
  apply bind_inv in Hact as ([] & g1 & Hrefresh & Hact).
  apply bind_inv in Hact as (d & g1' & Hask & Hact).
  apply ask_inv in Hask. subst g1'.
  destruct d as [dir|]; [|discriminate].
  apply bind_inv in Hact as (final & g2 & Hmove & Hact).
  apply bind_inv in Hact as ([] & g3' & Hinteract & Hret).
  injection Hret as -> ->.
  pose proof (update_map_same_but_knowledge idx cur g) as Hsame.
  rewrite Hrefresh in Hsame. simpl in Hsame.
  destruct Hsame as (_ & _ & _ & _ & _ & _ & Hobjs1 & _ & Hstr1 & _).
  assert (Hs1 : agent_strengths g1 !! idx = Some s) by (rewrite Hstr1; exact Hs).
  assert (Hs2 : exists s2, agent_strengths g2 !! idx = Some s2 /\ s2 <= s - 1
                           /\ objects g2 = objects g).
  { destruct (resolve_move_cases tile_cost _ _ _ _ _ _ _ Hs1 Hmove)
      as [[_ ->] | (_ & _ & t & c & _ & _ & Hc & _ & ->)].
    - exists (s - 1). split; [eapply set_strength_lookup; eassumption|].
      split; [lia | exact Hobjs1].
    - exists (s - c). split; [eapply set_strength_lookup; eassumption|].
      split; [pose proof (costs _ _ Hc); lia | exact Hobjs1]. }
  destruct Hs2 as (s2 & Hs2 & Hle & Hobjs2).
  rewrite (interact_quiet random step idx final_loc g2) in Hinteract
    by (eapply quiet_same_objects; eassumption).
  injection Hinteract as <-.
  unfold finish in Hfinish.
  apply bind_inv in Hfinish as ([] & g4 & Hset & Hfinish).
  assert (Hg4 : agent_strengths g4 = agent_strengths g2).
  { revert Hset. unfold location_set, bind, gets, orelse, modify. simpl.
    destruct (agent_locations g2 !! idx); [|discriminate]. simpl.
    intros H. injection H as <-. reflexivity. }
  apply bind_inv in Hfinish as (s4 & g5 & Hget4 & Hfinish).
  apply strength_get_inv in Hget4 as [-> Hs4].
  rewrite Hg4, Hs2 in Hs4. injection Hs4 as <-.
  exists s2.
  destruct (decide (s2 <= 0)) as [Hdead | Halive].
  - injection Hfinish as <- <-. rewrite Hg4.
    split; [exact Hs2|]. split; [exact Hle | discriminate].
  - assert (Hg' : g' = g4).
    { revert Hfinish. unfold bind, gets. simpl.
      destruct (decide (final_loc = goal_loc g4)); intros H;
        injection H as _ <-; reflexivity. }
    subst g'. rewrite Hg4.
    split; [exact Hs2|]. split; [exact Hle | intros _; lia].
Qed.

(** The turns of the agents other than agent 0, from iteration
    [q * n + i] on: either the run ends during them, or it reaches the
    iteration after them with agent 0 as strong as before. *)
Lemma others_turns (n q : nat) (j : nat) :
  forall (i : nat) g f s0,
    (0 < i)%nat -> (i + j <= n)%nat ->
    agents g = n -> quiet g ->
    agent_strengths g !! 0%nat = Some s0 ->
    (play_from tile_cost agent_step random (j + f) (q * n + i) g).1 <> Running
    \/ exists g',
         play_from tile_cost agent_step random (j + f) (q * n + i) g
         = play_from tile_cost agent_step random f (q * n + i + j) g'
         /\ agents g' = n /\ quiet g'
         /\ agent_strengths g' !! 0%nat = Some s0.
Proof.
  induction j as [|j IH]; intros i g f s0 Hi Hij Hn Hq Hs0.
  - right. exists g. rewrite Nat.add_0_r. auto.
  - change (S j + f)%nat with (S (j + f)). cbn [play_from].
    pose proof (turn_footprint_holds tile_cost agent_step random
                  (q * n + i) g) as [Hstatic Hothers].
    assert (Hidx : ((q * n + i) mod agents g = i)%nat).
    { rewrite Hn. rewrite Nat.add_comm, Nat.Div0.mod_add.
      apply Nat.mod_small. lia. }
    rewrite Hidx in Hothers.
    destruct (turn tile_cost agent_step random (q * n + i) g)
      as [[[ | | ] | e] g1]; simpl in Hstatic, Hothers;
      try (left; simpl; discriminate).
    destruct Hstatic as (_ & _ & _ & _ & Hn1 & _ & _ & _ & Hsub & _).
    destruct (Hothers 0%nat) as (_ & _ & _ & Hs1); [lia|].
    destruct (IH (S i) g1 f s0) as [Hend | (g' & Hrun & Hn' & Hq' & Hs')].
    + lia.
    + lia.
    + congruence.
    + eapply quiet_fewer_objects; eassumption.
    + rewrite Hs1. exact Hs0.
    + left. replace (S (q * n + i)) with (q * n + S i)%nat by lia. exact Hend.
    + right. exists g'.
      replace (S (q * n + i)) with (q * n + S i)%nat by lia.
      replace (q * n + i + S j)%nat with (q * n + S i + j)%nat by lia.
      auto.
Qed.

(** From a turn of agent 0 on, the run ends within one iteration more than
    [n] times the strength of agent 0. *)
Lemma rounds_end (n : nat) (m : nat) :
  forall (q : nat) g f s0,
    (0 < n)%nat -> agents g = n -> quiet g ->
    agent_strengths g !! 0%nat = Some s0 ->
    s0 <= Z.of_nat m ->
    (play_from tile_cost agent_step random (n * m + 1 + f) (q * n) g).1
    <> Running.
Proof.
  induction m as [|m IH]; intros q g f s0 Hpos Hn Hq Hs0 Hle.
  - replace (n * 0 + 1 + f)%nat with (S f) by lia. cbn [play_from].
    assert (Hidx : ((q * n) mod agents g = 0)%nat)
      by (rewrite Hn; apply Nat.Div0.mod_mul).
    destruct (turn tile_cost agent_step random (q * n) g)
      as [[[ | | ] | e] g1] eqn:Hturn; simpl; try discriminate.
    exfalso.
    rewrite <- Hidx in Hs0.
    destruct (turn_costs_strength _ _ _ _ _ Hq Hturn Hs0)
      as (s1 & _ & Hcost & Halive).
    specialize (Halive eq_refl). lia.
  - replace (n * S m + 1 + f)%nat with (S ((n - 1) + (n * m + 1 + f)))
      by nia.
    cbn [play_from].
    assert (Hidx : ((q * n) mod agents g = 0)%nat)
      by (rewrite Hn; apply Nat.Div0.mod_mul).
    pose proof (turn_footprint_holds tile_cost agent_step random (q * n) g)
      as [Hstatic _].
    destruct (turn tile_cost agent_step random (q * n) g)
      as [[[ | | ] | e] g1] eqn:Hturn; simpl; try discriminate.
    simpl in Hstatic.
    destruct Hstatic as (_ & _ & _ & _ & Hn1 & _ & _ & _ & Hsub & _).
    pose proof Hs0 as Hs0'. rewrite <- Hidx in Hs0'.
    destruct (turn_costs_strength _ _ _ _ _ Hq Hturn Hs0')
      as (s1 & Hs1 & Hcost & _).
    rewrite Hidx in Hs1.
    replace (S (q * n)) with (q * n + 1)%nat by lia.
    destruct (others_turns n q (n - 1) 1 g1 (n * m + 1 + f) s1)
      as [Hend | (g' & Hrun & Hn' & Hq' & Hs')].
    + lia.
    + lia.
    + congruence.
    + eapply quiet_fewer_objects; eassumption.
    + exact Hs1.
    + exact Hend.
    + rewrite Hrun.
      replace (q * n + 1 + (n - 1))%nat with (S q * n)%nat by nia.
      apply (IH (S q) g' f s1); auto. lia.
Qed.

(** X20.  With the boss at most on the map and every cost at least 1, a run of
    [play] cannot go on for ever: it ends - an agent dies or wins, or the
    run is aborted - within one iteration more than the number of agents
    times the strength of the first agent. *)
Theorem play_ends_on_a_quiet_map (fuel : nat) (g : GameDriver) (s0 : Z) :
  quiet g ->
  (0 < agents g)%nat ->
  agent_strengths g !! 0%nat = Some s0 ->
  (agents g * Z.to_nat s0 < fuel)%nat ->
  (play tile_cost agent_step random fuel g).1 <> Running.
Proof.
  intros Hq Hn Hs0 Hfuel. unfold play.
  rewrite decide_False by lia.
  replace fuel
    with (agents g * Z.to_nat s0 + 1
          + (fuel - agents g * Z.to_nat s0 - 1))%nat by lia.
  change 0%nat with (0 * agents g)%nat at 2.
  apply (rounds_end (agents g) (Z.to_nat s0) 0 g _ s0); auto. lia.
Qed.

End Ending.

Lemma play_ends_on_a_quiet_map_witness :
  (play sample_cost go_east half 11
     (with_objects {[ (0, 2) := Boss ]} (arena 5 3))).1 <> Running.
Proof.
  apply (play_ends_on_a_quiet_map sample_cost go_east half) with (s0 := 5).
  - intros t c Hc. destruct t; simpl in Hc; inversion Hc; lia.
  - intros loc o Ho.
    destruct (decide (loc = (0, 2))) as [-> | Hne].
    + simpl in Ho. rewrite lookup_singleton_eq in Ho. congruence.
    + simpl in Ho. rewrite lookup_singleton_ne in Ho by auto. discriminate.
  - simpl. lia.
  - reflexivity.
  - simpl. lia.
Defined.

(** * A won fight, in full *)

Section Defeat.

Variable random : nat -> float.

(** X21.  When the draw is strictly greater than the [float] that the
    division of the agent's strength by the sum of the two strengths
    yields, the fight with a monster leaves the agent with the initial
    strength plus the monster's, the monster deleted from the object map and
    from the acting agent's private object map, and nothing else written -
    no other agent's private object map, no private map and no location. *)
Theorem monster_defeat (step idx : nat) (final_loc : Location)
    (g : GameDriver) (s strength : Z) (known : ObjectMap)
    (win_chance : float) :
  objects g !! final_loc = Some (StaticMonster strength) ->
  agent_strengths g !! idx = Some s ->
  agent_objects g !! idx = Some known ->
  (0 < agents g)%nat ->
  true_div s (s + strength) g = (Ok win_chance, g) ->
  float_gt (random step) win_chance = true ->
  exists g',
    interact random step idx final_loc g = (Ok tt, g')
    /\ agent_strengths g' !! idx = Some (initial_strength g + strength)
    /\ agent_strengths g'
       = <[idx := initial_strength g + strength]> (agent_strengths g)
    /\ objects g' = delete final_loc (objects g)
    /\ objects g' !! final_loc = None
    /\ agent_objects g' !! idx = Some (delete final_loc known)
    /\ agent_objects g' = <[idx := delete final_loc known]> (agent_objects g)
    /\ (forall a, a <> idx -> agent_objects g' !! a = agent_objects g !! a)
    /\ agent_locations g' = agent_locations g
    /\ agent_maps g' = agent_maps g
    /\ game_map g' = game_map g
    /\ goal_loc g' = goal_loc g.
Proof.
  intros Hobj Hs Hknown Hn Hdiv Hwin.
  exists (after_win idx final_loc strength
            (<[idx := delete final_loc known]> (agent_objects g)) g).
  split.
  - unfold interact.
    rewrite (bind_ok (gets objects) _ g _ g eq_refl). rewrite Hobj.
    unfold fight.
    rewrite (bind_ok _ _ _ _ _ (strength_get_ok _ _ _ Hs)).
    rewrite (bind_ok _ _ _ _ _ (strength_get_ok _ _ _ Hs)).
    rewrite (bind_ok _ _ _ _ _ Hdiv). rewrite Hwin.
    rewrite (bind_ok (gets initial_strength) _ g _ g eq_refl).
    rewrite (bind_ok _ _ _ _ _ (strength_set_ok _ _ _ (initial_strength g) Hs)).
    erewrite bind_ok; cycle 1.
    { apply gain_ok. eapply set_strength_lookup; eassumption. }
    rewrite set_strength_twice.
    unfold del_object at 1.
    erewrite (bind_ok (modify _)); [|reflexivity].
    rewrite (purge_runs idx final_loc _ known);
      [reflexivity | exact Hn | exact Hknown].
  - simpl.
    split; [apply list_lookup_insert_eq; eapply lookup_lt_Some; eassumption|].
    split; [reflexivity|]. split; [reflexivity|].
    split; [apply lookup_delete_eq|].
    split; [apply list_lookup_insert_eq; eapply lookup_lt_Some; eassumption|].
    split; [reflexivity|].
    split; [intros a Ha; apply list_lookup_insert_ne; auto|].
    repeat split; reflexivity.
Qed.

End Defeat.

Lemma monster_defeat_witness :
  exists g',
    interact half 0 0 (0, 1)
      (with_agent_objects [{[ (0, 1) := StaticMonster 3 ]}]
         (set_strength 0 0 (arena 1 3))) = (Ok tt, g')
    /\ agent_strengths g' = [13]
    /\ objects g' !! (0, 1) = None
    /\ objects g' !! (0, 2) = Some Boss
    /\ agent_objects g' !! 0%nat = Some (delete (0, 1) {[ (0, 1) := StaticMonster 3 ]})
    /\ agent_locations g' = [(0, 0)].
Proof.
  destruct (monster_defeat half 0 0 (0, 1)
              (with_agent_objects [{[ (0, 1) := StaticMonster 3 ]}]
                 (set_strength 0 0 (arena 1 3)))
              0 3 {[ (0, 1) := StaticMonster 3 ]} (S754_zero false))
    as (g' & Hrun & _ & Hstr & Hobjs & Hgone & Hknown & _ & _ & Hlocs & _).
  - reflexivity.
  - reflexivity.
  - reflexivity.
  - simpl. lia.
  - vm_compute. reflexivity.
  - vm_compute. reflexivity.
  - exists g'. split; [exact Hrun|].
    split; [rewrite Hstr; reflexivity|].
    split; [exact Hgone|].
    split; [rewrite Hobjs; vm_compute; reflexivity|].
    split; [exact Hknown | rewrite Hlocs; reflexivity].
Defined.

(** A quotient beyond the range of a [float]: an agent of strength [2^1024]
    against a monster of strength [1 - 2^1024] divides [2^1024] by 1, and
    the division raises [OverflowError]. *)
Lemma quotient_overflows :
  let g := arena (2 ^ 1024) (1 - 2 ^ 1024) in
  int_true_div (2 ^ 1024) (2 ^ 1024 + (1 - 2 ^ 1024)) = S754_infinity false
  /\ interact half 0 0 (0, 1) g = (Raise OverflowError, g).
Proof. vm_compute. split; reflexivity. Qed.
